(** * Interactive Kaleidoscope: a shallow embedding of the render pipeline

    The development follows [Kaleidoscope] v1.6 (colour utilities, control
    mappers, the render loop with its animation-state integrator, the
    geometry cache and the wedge renderer) and the v1.1 wedge renderer, whose
    closed-form harmonic sum the later version is compared with; the
    animation engines of v1.1 (with its zoom) and of v1.2 follow.

    JavaScript numbers are modelled by the real numbers [R]: every
    arithmetic operation, [Math.exp], [Math.sin], [Math.cos] and [Math.pow]
    is the exact real function, and the rounding of doubles and of
    [Float32Array] cells is left out, as are [NaN] and the infinities.
    Integers that the code obtains by [Math.round], [Math.floor],
    [parseInt] or [x|0] are values of [Z].  Strings are [String.string].

    Where the rounding decides the result, the statements say so: the
    module [F64] evaluates [sliderGain] on binary64 numbers for a very
    small steepness, and the statements on colour buckets hold for any
    content of the cache cells in [[0, 1]]. *)

From Stdlib Require Import Reals Lra Lia ZArith List String Ascii Bool.
From Stdlib Require Import Sorted.
From Stdlib Require Import Floats.
Import ListNotations.

Open Scope R_scope.

(* ================================================================== *)
(** ** JavaScript numeric primitives *)

Module Js.

(** [Math.floor] and [Math.round] (half-way cases round towards +infinity). *)
Definition Math_floor (x : R) : Z := Int_part x.
Definition Math_round (x : R) : Z := Int_part (x + / 2).

(** Truncation towards zero, as used by the remainder operator and by
    the conversion [ToInt32]. *)
Definition Math_trunc (x : R) : Z :=
  if Rle_dec 0 x then Int_part x else (- Int_part (- x))%Z.

(** [x % y]: the remainder has the sign of the dividend. *)
Definition rem (x y : R) : R := x - y * IZR (Math_trunc (x / y)).

(** [n | 0] on an integral number: reduction to a signed 32-bit integer. *)
Definition toInt32 (n : Z) : Z :=
  ((n + 2147483648) mod 4294967296 - 2147483648)%Z.

(** [Math.sign], [Math.abs]. *)
Definition Math_sign (x : R) : R :=
  if Rlt_dec 0 x then 1 else if Rlt_dec x 0 then -1 else 0.
Definition Math_abs (x : R) : R := Rabs x.

(** [Math.pow(x, y)] for a base [x >= 0] and an exponent [y > 0]: the
    power of a positive base, and [0] for the base [0]. *)
Definition Math_pow (x y : R) : R :=
  if Rlt_dec 0 x then Rpower x y else 0.

End Js.

(** [const TAU = Math.PI * 2] *)
Definition TAU : R := PI * 2.

(** [const clamp = (x, a, b) => Math.min(b, Math.max(a, x))], on numbers and
    on numbers that are integers. *)
Definition clamp (x a b : R) : R := Rmin b (Rmax a x).
Definition clampZ (x a b : Z) : Z := Z.min b (Z.max a x).

(* ================================================================== *)
(** ** Colour utilities (v1.6) *)

Module Color.

Record rgb : Type := mkRgb { r : R; g : R; b : R }.
Record hsl : Type := mkHsl { h : R; s : R; l : R }.

(** One character of the class [[\da-f]] under the [i] flag. *)
Definition hexDigit (c : ascii) : option Z :=
  let n := Z.of_N (N_of_ascii c) in
  if ((48 <=? n) && (n <=? 57))%Z then Some (n - 48)%Z
  else if ((97 <=? n) && (n <=? 102))%Z then Some (n - 87)%Z
  else if ((65 <=? n) && (n <=? 70))%Z then Some (n - 55)%Z
  else None.

Definition isHexDigit (c : ascii) : bool :=
  match hexDigit c with Some _ => true | None => false end.

(** [/^#?([\da-f]{2})([\da-f]{2})([\da-f]{2})$/i.exec(hex)]: the three
    captured groups, or [None] for [null]. *)
Definition hexRegExp_exec (hex : string) : option (string * string * string) :=
  let body := match hex with
              | String "#"%char rest => rest
              | _ => hex
              end in
  match body with
  | String c1 (String c2 (String c3 (String c4 (String c5 (String c6 EmptyString))))) =>
      if forallb isHexDigit [c1; c2; c3; c4; c5; c6]
      then Some (String c1 (String c2 EmptyString),
                 String c3 (String c4 EmptyString),
                 String c5 (String c6 EmptyString))
      else None
  | _ => None
  end.

(** [parseInt(s, 16)] on a string of hexadecimal digits: the digits are
    accumulated from the left and reading stops at the first character
    that is not a digit. *)
Fixpoint parseHexFrom (acc : Z) (s : string) : Z :=
  match s with
  | EmptyString => acc
  | String c rest =>
      match hexDigit c with
      | Some d => parseHexFrom (acc * 16 + d)%Z rest
      | None => acc
      end
  end.
Definition parseInt16 (s : string) : Z := parseHexFrom 0%Z s.

Definition hexToRgb (hex : string) : rgb :=
  match hexRegExp_exec hex with
  | None => mkRgb 255 255 255
  | Some (m1, m2, m3) =>
      mkRgb (IZR (parseInt16 m1)) (IZR (parseInt16 m2)) (IZR (parseInt16 m3))
  end.

(** [v.toString(16)] for an integer [v >= 0]. *)
Definition digitChar (d : Z) : ascii :=
  if (d <? 10)%Z then ascii_of_N (Z.to_N (48 + d))
  else ascii_of_N (Z.to_N (87 + d)).

Fixpoint toString16_aux (fuel : nat) (v : Z) (acc : string) : string :=
  match fuel with
  | O => acc
  | S fuel' =>
      let acc' := String (digitChar (v mod 16)) acc in
      if (v <? 16)%Z then acc' else toString16_aux fuel' (v / 16)%Z acc'
  end.
Definition toString16 (v : Z) : string :=
  toString16_aux (S (Z.to_nat (Z.log2 v))) v EmptyString.

(** [str.padStart(2, '0')] *)
Definition padStart2 (str : string) : string :=
  match String.length str with
  | O => "00"
  | S O => String "0"%char str
  | _ => str
  end.

(** The local [to] of [rgbToHex]. *)
Definition to (v : Z) : string := padStart2 (toString16 v).

(** [rgbToHex]: the channels are written in the order the source writes
    them, [r], then [b], then [g]; the final [.replace('#', '#')] leaves
    the string as it is. *)
Definition rgbToHex (r g b : R) : string :=
  ("#" ++ to (clampZ (Js.Math_round r) 0 255)
       ++ to (clampZ (Js.Math_round b) 0 255)
       ++ to (clampZ (Js.Math_round g) 0 255))%string.

Definition rgbToHsl (r g b : R) : hsl :=
  let r := r / 255 in
  let g := g / 255 in
  let b := b / 255 in
  let max := Rmax (Rmax r g) b in
  let min := Rmin (Rmin r g) b in
  let l := (max + min) / 2 in
  if Req_dec_T max min then mkHsl 0 0 l
  else
    let d := max - min in
    let s := if Rlt_dec (1 / 2) l then d / (2 - max - min) else d / (max + min) in
    let h := if Req_dec_T max r then (g - b) / d + (if Rlt_dec g b then 6 else 0)
             else if Req_dec_T max g then (b - r) / d + 2
             else (r - g) / d + 4 in
    mkHsl (h / 6) s l.

Definition hue2rgb (p q t : R) : R :=
  let t := if Rlt_dec t 0 then t + 1 else t in
  let t := if Rlt_dec 1 t then t - 1 else t in
  if Rlt_dec t (1 / 6) then p + (q - p) * 6 * t
  else if Rlt_dec t (1 / 2) then q
  else if Rlt_dec t (2 / 3) then p + (q - p) * (2 / 3 - t) * 6
  else p.

Definition hslToRgb (h s l : R) : rgb :=
  if Req_dec_T s 0 then mkRgb (l * 255) (l * 255) (l * 255)
  else
    let q := if Rlt_dec l (1 / 2) then l * (1 + s) else l + s - l * s in
    let p := 2 * l - q in
    mkRgb (hue2rgb p q (h + 1 / 3) * 255)
          (hue2rgb p q h * 255)
          (hue2rgb p q (h - 1 / 3) * 255).

(** The saturation handed to [hslToRgb] by [boostSaturation] ([s2]). *)
Definition boostedS (s boost : R) : R :=
  let vibrance := 1 / 2 in
  clamp (s * (1 + vibrance * (1 - s)) * boost) 0 1.

Definition boostSaturation (hex : string) (boost : R) : string :=
  let c := hexToRgb hex in
  let x := rgbToHsl (r c) (g c) (b c) in
  let s2 := boostedS (s x) boost in
  let out := hslToRgb (h x) s2 (l x) in
  rgbToHex (r out) (g out) (b out).

End Color.

(* ================================================================== *)
(** ** Control mappers *)

(** [sliderGain(x, k = 2.4)], over the reals: the denominator
    [1 - exp (- k)] is positive for every [k > 0].  On doubles it is [0]
    once [Math.exp(-k)] rounds to [1], see [F64.sliderGain]. *)
Definition sliderGain (x k : R) : R :=
  let x := clamp x 0 1 in
  let d := 1 - exp (- k) in
  (1 - exp (- k * x)) / d.

(** The default steepness of [sliderGain], the only one the callers use. *)
Definition defaultK : R := 2.4.

(** [sliderGain] on binary64 numbers, for a steepness below [2^-28]. *)
Module F64.

Local Open Scope float_scope.

(** [Math.max] and [Math.min] of two doubles: [NaN] if one of them is,
    and [+0] above [-0]. *)
Definition Math_max (a b : float) : float :=
  if (PrimFloat.is_nan a || PrimFloat.is_nan b)%bool then nan
  else if PrimFloat.ltb a b then b
  else if PrimFloat.ltb b a then a
  else if PrimFloat.get_sign a then b else a.

Definition Math_min (a b : float) : float :=
  if (PrimFloat.is_nan a || PrimFloat.is_nan b)%bool then nan
  else if PrimFloat.ltb a b then a
  else if PrimFloat.ltb b a then b
  else if PrimFloat.get_sign a then a else b.

Definition clamp (x a b : float) : float := Math_min b (Math_max a x).

(** [Math.exp(x)] for a double [x] of magnitude below [2^-28]: the sum
    [1 + x] rounded to a double, which is what the [exp] of the engines
    (fdlibm's) returns on that range. *)
Definition Math_exp (x : float) : float := 1 + x.

Definition sliderGain (x k : float) : float :=
  let x := clamp x 0 1 in
  let d := 1 - Math_exp (- k) in
  (1 - Math_exp ((- k) * x)) / d.

End F64.

(** [sensShape(s)] *)
Definition sensShape (s : R) : R :=
  0.22 + 0.50 * Js.Math_pow (clamp s 0 1) 1.15.

(* ================================================================== *)
(** ** Animation state and the render loop (v1.6) *)

(** The record held by [stateRef]. *)
Record state : Type := mkState {
  t : R; rot : R; swirl : R;
  patV : R; rotV : R; swlV : R;
  fps : R; renderMs : R
}.

Definition initialState : state :=
  mkState 0 0 0 0.4 0.12 0.4 60 0.

(** The React state read by the loop closure.  The range inputs for
    [segments] deliver integers. *)
Record controls : Type := mkControls {
  segments : Z;
  complexity : R;
  run : bool;
  patternUI : R;
  rotationUI : R;
  swirlUI : R;
  sensitivityUI : R
}.

Definition defaultControls : controls :=
  mkControls 12 6 true 0.6 0.3 0.5 0.6.

(** Speed caps. *)
Definition capPat : R := 1.8.
Definition capRot : R := 0.40.
Definition capSwl : R := 1.6.

(** Target pursuit and integration: the first part of the [if (run)] block.
    On a number [rotationUI || 0] is [rotationUI]. *)
Definition pursue (c : controls) (dt : R) (S : state) : state :=
  let sens := sensShape (sensitivityUI c) in
  let tgtPat := capPat * sens * sliderGain (patternUI c) defaultK in
  let tgtRot := capRot * sens * sliderGain (Js.Math_abs (rotationUI c)) defaultK
                * Js.Math_sign (rotationUI c) in
  let tgtSwl := capSwl * sens * sliderGain (swirlUI c) defaultK in
  let a := 1 - exp (- dt / 0.18) in
  let patV' := patV S + (tgtPat - patV S) * a in
  let rotV' := rotV S + (tgtRot - rotV S) * a in
  let swlV' := swlV S + (tgtSwl - swlV S) * a in
  mkState (t S + dt * patV') (rot S + dt * rotV') (swirl S + dt * swlV')
          patV' rotV' swlV' (fps S) (renderMs S).

(** The target and the smoothed rotation velocity of [pursue], by name. *)
Definition tgtRotOf (c : controls) : R :=
  capRot * sensShape (sensitivityUI c)
  * sliderGain (Js.Math_abs (rotationUI c)) defaultK
  * Js.Math_sign (rotationUI c).

Definition smoothing (dt : R) : R := 1 - exp (- dt / 0.18).

(** The three guards that follow ("bound angles to avoid precision drift"). *)
Definition foldRot (x : R) : R :=
  if Rlt_dec TAU x then Js.rem (Js.rem x TAU + TAU) TAU
  else if Rlt_dec x (- TAU) then Js.rem (Js.rem x TAU + TAU) TAU
  else x.

Definition resetBig (x : R) : R :=
  if Rlt_dec 1e6 x then 0 else if Rlt_dec x (-1e6) then 0 else x.

Definition boundAngles (S : state) : state :=
  mkState (resetBig (t S)) (foldRot (rot S)) (resetBig (swirl S))
          (patV S) (rotV S) (swlV S) (fps S) (renderMs S).

(** The whole [if (run)] block. *)
Definition integrate (c : controls) (dt : R) (S : state) : state :=
  boundAngles (pursue c dt S).

(** What the effect closure holds: the controls it was created with, the
    time stamp [last], and the animation state shared through [stateRef]. *)
Record world : Type := mkWorld { ctl : controls; last : R; anim : state }.

Definition dtRawOf (w : world) (now : R) : R := Rmax 0 ((now - last w) / 1000).
Definition dtOf (w : world) (now : R) : R := Rmin 0.050 (dtRawOf w now).

(** One call of [loop(now)]; [elapsed] is the duration of [renderFrame]
    measured by the two calls of [performance.now()]. *)
Definition loop (w : world) (now elapsed : R) : world :=
  let dtRaw := dtRawOf w now in
  let dt := dtOf w now in
  let S1 := if run (ctl w) then integrate (ctl w) dt (anim w) else anim w in
  let instFps := if Rlt_dec 0 dtRaw then 1 / dtRaw else 60 in
  let S2 := mkState (t S1) (rot S1) (swirl S1) (patV S1) (rotV S1) (swlV S1)
                    (fps S1 + (instFps - fps S1) * 0.12) elapsed in
  mkWorld (ctl w) now S2.

(** What happens to the world: an animation frame, or a change of a control,
    after which the effect is run again with a fresh [last] while
    [stateRef] keeps the animation state. *)
Inductive event : Type :=
| Frame (now elapsed : R)
| Rebind (c : controls) (now : R).

Definition step (w : world) (e : event) : world :=
  match e with
  | Frame now elapsed => loop w now elapsed
  | Rebind c now => mkWorld c now (anim w)
  end.

Definition steps (w : world) (es : list event) : world := fold_left step es w.

Definition isFrame (e : event) : bool :=
  match e with Frame _ _ => true | Rebind _ _ => false end.

Definition initialWorld (c : controls) (now : R) : world :=
  mkWorld c now initialState.

(* ================================================================== *)
(** ** Per-frame constants and the geometry cache (v1.6) *)

Definition segsOf (segments : Z) : Z := clampZ (Js.toInt32 segments) 2 128.
Definition thetaOf (segments : Z) : R := TAU / IZR (segsOf segments).

(** Samples per wedge. *)
Definition sampleCount (segments : Z) (complexity : R) : Z :=
  let base := 320 in
  let perComp := 180 in
  let thetaNorm := thetaOf segments / (TAU / 12) in
  let segTaper := Js.Math_pow (clamp thetaNorm 0.25 1) 0.75 in
  Z.max 260 (Js.Math_floor ((base + perComp * complexity) * segTaper)).

(** The typed arrays of the cache, as lists of [L + 1] cells. *)
Record geo : Type := mkGeo {
  Gt : list R;
  sinAng : list R; cosAng : list R;
  sinPhi1 : list R; cosPhi1 : list R;
  sinPhi2 : list R; cosPhi2 : list R;
  sinPhi3 : list R; cosPhi3 : list R
}.

Definition k1 (complexity : R) : R := 6 + complexity * 0.9.
Definition k2 (complexity : R) : R := 10 + complexity * 1.2.
Definition k3 (complexity : R) : R := 14 + complexity * 0.6.

Definition table (L : nat) (f : nat -> R) : list R := map f (seq 0 (S L)).

(** The rebuild of the cache for a key [(L, theta, complexity)]. *)
Definition buildGeo (L : nat) (theta complexity : R) : geo :=
  let spread := 2 + 0.15 * complexity in
  let tj := fun j : nat => INR j / INR L in
  let ang := fun j => (tj j - 0.5) * theta * spread in
  let p1 := fun j => k1 complexity * tj j in
  let p2 := fun j => k2 complexity * tj j in
  let p3 := fun j => k3 complexity * (tj j * 1.2) in
  mkGeo (table L tj)
        (table L (fun j => sin (ang j))) (table L (fun j => cos (ang j)))
        (table L (fun j => sin (p1 j))) (table L (fun j => cos (p1 j)))
        (table L (fun j => sin (p2 j))) (table L (fun j => cos (p2 j)))
        (table L (fun j => sin (p3 j))) (table L (fun j => cos (p3 j))).

(** The cache that [loop] hands to [renderFrame] under given controls. *)
Definition geoOf (c : controls) : geo :=
  buildGeo (Z.to_nat (sampleCount (segments c) (complexity c)))
           (thetaOf (segments c)) (complexity c).

(* ================================================================== *)
(** ** The wedge renderer (v1.6) *)

Definition cell (a : list R) (j : nat) : R := nth j a 0.

(** Frame phases (angle-add). *)
Definition a1 (S : state) : R := 1.3 * t S + 0.15 * sin (swirl S).
Definition a2 (S : state) : R := -0.7 * t S + 0.20 * cos (swirl S * 0.7).
Definition a3 (S : state) : R := 0.9 * t S + 0.05 * sin (swirl S * 1.4).

(** [Rnorm] of sample [j]. *)
Definition Rnorm (G : geo) (S : state) (j : nat) : R :=
  let s1 := cell (sinPhi1 G) j * cos (a1 S) + cell (cosPhi1 G) j * sin (a1 S) in
  let s2 := cell (sinPhi2 G) j * cos (a2 S) + cell (cosPhi2 G) j * sin (a2 S) in
  let s3 := cell (sinPhi3 G) j * cos (a3 S) + cell (cosPhi3 G) j * sin (a3 S) in
  0.55 + 0.30 * s1 + 0.15 * s2 + 0.10 * s3.

(** The radius [r] and the point of sample [j]. *)
Definition radiusAt (radius : R) (G : geo) (S : state) (j : nat) : R :=
  clamp (Rnorm G S j) 0.05 0.98 * radius.

Definition pointAt (radius : R) (G : geo) (S : state) (j : nat) : R * R :=
  let r := radiusAt radius G S j in
  (cell (cosAng G) j * r, cell (sinAng G) j * r).



(* ================================================================== *)
(** ** The wedge renderer of v1.1: the closed-form harmonic sum *)

Module V11.

(** [Rnorm] at sample parameter [tt], pattern time [St] and swirl phase
    [swirl]. *)
Definition Rnorm (complexity St swirl tt : R) : R :=
  0.55
  + 0.30 * sin (k1 complexity * (tt + 0.15 * sin swirl) + 1.3 * St)
  + 0.15 * cos (k2 complexity * (tt + 0.20 * cos (swirl * 0.7)) - 0.7 * St)
  + 0.10 * sin (k3 complexity * (tt * 1.2 + 0.05 * sin (swirl * 1.4)) + 0.9 * St).

End V11.

(* ================================================================== *)
(** ** Palette editing *)

Definition initialColors : list string := ["#ff0055"; "#00d2ff"; "#ffd166"]%string.

Definition addColor (cs : list string) : list string :=
  if (12 <=? List.length cs)%nat then cs else cs ++ ["#ffffff"%string].

Definition removeColor (cs : list string) : list string :=
  if (List.length cs <=? 3)%nat then cs else firstn (List.length cs - 1) cs.

Inductive paletteOp : Type := AddColor | RemoveColor.

Definition applyOp (cs : list string) (op : paletteOp) : list string :=
  match op with
  | AddColor => addColor cs
  | RemoveColor => removeColor cs
  end.

Definition applyOps (cs : list string) (ops : list paletteOp) : list string :=
  fold_left applyOp ops cs.

(** The palette handed to the renderer: the first colour as it is, the
    others through [boostSaturation]. *)
Definition paletteOf (colors : list string) (satBoost : R) : list string :=
  match colors with
  | [] => []
  | c :: rest => c :: map (fun x => Color.boostSaturation x satBoost) rest
  end.

(* ================================================================== *)
(** ** Notions used by the statements *)

Import Color.

(** The length the palette is meant to keep. *)
Definition lengthOk (cs : list string) : Prop :=
  (3 <= List.length cs <= 12)%nat.

(** The check that [to] writes [v] as two hexadecimal digits which
    [parseInt16] reads back as [v]. *)
Definition byteOk (v : Z) : bool :=
  match to v with
  | String c1 (String c2 EmptyString) =>
      isHexDigit c1 && isHexDigit c2 && (parseInt16 (to v) =? v)%Z
  | _ => false
  end.

(** The strings the regular expression of [hexToRgb] is meant for, said
    without the matcher: six characters out of [0-9a-fA-F], after an
    optional ["#"]. *)
Definition hexChar (c : ascii) : Prop :=
  In c (list_ascii_of_string "0123456789abcdefABCDEF").

Definition hexColorString (str : string) : Prop :=
  exists body : string,
    (str = body \/ str = String "#" body) /\
    String.length body = 6%nat /\
    Forall hexChar (list_ascii_of_string body).

Definition white : rgb := mkRgb 255 255 255.

(** The HSL saturation of the colour a string stands for. *)
Definition satOf (hex : string) : R :=
  let c := hexToRgb hex in s (rgbToHsl (r c) (g c) (b c)).

Definition channelOk (x : R) : Prop := 0 <= x <= 255.

(** Full sensitivity and the rotation slider at its left end. *)
Definition reverseControls : controls :=
  mkControls 12 6 true 0.6 (-1) 0.5 1.

Definition reverseRun : world :=
  steps (initialWorld reverseControls 0) [Frame 50 1; Frame 100 1].

(* ================================================================== *)
(** ** Further definitions: the rest of the three versions *)

(** *** Colour strings *)

(** The lower-case form of a character of a colour string. *)
Definition lowerAscii (c : ascii) : ascii :=
  let n := N_of_ascii c in
  if ((65 <=? n) && (n <=? 90))%N then ascii_of_N (n + 32) else c.

Fixpoint lowerString (str : string) : string :=
  match str with
  | EmptyString => EmptyString
  | String c rest => String (lowerAscii c) (lowerString rest)
  end.

Definition isByte (x : R) : Prop := exists z : Z, (0 <= z <= 255)%Z /\ x = IZR z.

(** The two stages of [hexRegExp_exec]: the optional ["#"], then the six
    digits. *)
Definition stripHash (str : string) : string :=
  match str with
  | String "#"%char rest => rest
  | _ => str
  end.

Definition lower3 (m : string * string * string) : string * string * string :=
  let '(m1, m2, m3) := m in (lowerString m1, lowerString m2, lowerString m3).

(** *** The other two targets of [pursue], by name *)

Definition tgtPatOf (c : controls) : R :=
  capPat * sensShape (sensitivityUI c) * sliderGain (patternUI c) defaultK.

Definition tgtSwlOf (c : controls) : R :=
  capSwl * sensShape (sensitivityUI c) * sliderGain (swirlUI c) defaultK.

(** The bounds the smoothed velocities keep: the speed caps times the
    largest sensitivity, 0.72. *)
Definition velocitiesOk (S : state) : Prop :=
  0 <= patV S <= 1.296 /\ -0.288 <= rotV S <= 0.288 /\ 0 <= swlV S <= 1.152.

(** The instantaneous frame rate of [loop]. *)
Definition instFpsOf (w : world) (now : R) : R :=
  if Rlt_dec 0 (dtRawOf w now) then 1 / dtRawOf w now else 60.

(** What every reachable animation state satisfies besides the bounds on
    its velocities. *)
Definition phasesOk (S : state) : Prop :=
  0 <= t S <= 1e6 /\ 0 <= swirl S <= 1e6.

(** *** The samples of a wedge *)

(** The taper of [loop]: [segTaper]. *)
Definition segTaperOf (segments : Z) : R :=
  Js.Math_pow (clamp (thetaOf segments / (TAU / 12)) 0.25 1) 0.75.

(** The angle [ang] of sample [j], as the cache builder computes it. *)
Definition angOf (L : nat) (theta complexity : R) (j : nat) : R :=
  (INR j / INR L - 0.5) * theta * (2 + 0.15 * complexity).


(** Samples per wedge in v1.1 and v1.2:
    [const L = Math.max(600, complexity * 450)]. *)
Definition samplesV11 (complexity : R) : R := Rmax 600 (complexity * 450).

(* ================================================================== *)
(** ** The geometry cache and its key (v1.6) *)

(** The key [`${L}|${theta.toFixed(6)}|${complexity}`], by its three
    parts: the sample count, the digits of [theta.toFixed(6)] (the integer
    nearest to [theta * 1e6]; [theta] is positive here), and the
    complexity.  The string is determined by the three parts and determines
    them. *)
Record geoKey : Type := mkGeoKey { keyL : Z; keyTheta : Z; keyComplexity : R }.

Definition toFixed6 (x : R) : Z := Js.Math_round (x * 1e6).

(** The record held by [geoRef]: the key (the empty string at first, which
    is the key of no frame) and the arrays ([null] at first). *)
Record geoCache : Type := mkGeoCache { gkey : option geoKey; garr : geo }.

Definition emptyGeo : geo := mkGeo [] [] [] [] [] [] [] [] [].

Definition initialGeoCache : geoCache := mkGeoCache None emptyGeo.

Definition keyOf (c : controls) : geoKey :=
  mkGeoKey (sampleCount (segments c) (complexity c))
           (toFixed6 (thetaOf (segments c)))
           (complexity c).

Definition geoKey_eq_dec (a b : geoKey) : {a = b} + {a <> b}.
Proof.
  decide equality; [apply Req_dec_T | apply Z.eq_dec | apply Z.eq_dec].
Defined.

Definition sameKey (a : option geoKey) (b : geoKey) : bool :=
  match a with
  | Some k => if geoKey_eq_dec k b then true else false
  | None => false
  end.

(** "Build geometry cache if needed": the part of [loop] between the
    per-frame constants and [renderFrame]. *)
Definition refreshGeo (c : controls) (G : geoCache) : geoCache :=
  let key := keyOf c in
  if sameKey (gkey G) key then G
  else mkGeoCache (Some key)
                  (buildGeo (Z.to_nat (keyL key)) (thetaOf (segments c))
                            (complexity c)).

(** The cache after a run of frames, each with the controls it saw. *)
Definition refreshAll (G : geoCache) (cs : list controls) : geoCache :=
  fold_left (fun g c => refreshGeo c g) cs G.

(** A cache that holds what its key says. *)
Definition coherent (G : geoCache) : Prop :=
  forall k, gkey G = Some k -> exists c, k = keyOf c /\ garr G = geoOf c.

(** *** The third palette operation *)

(** [updateColor(index, value)]:
    [cs.map((c, i) => (i === index ? value : c))]. *)
Definition updateColor (index : nat) (value : string) (cs : list string)
  : list string :=
  map (fun p => if Nat.eqb (fst p) index then value else snd p)
      (combine (seq 0 (List.length cs)) cs).

(** The three buttons and inputs that edit the colour list. *)
Inductive colorEdit : Type :=
| EditAdd
| EditRemove
| EditUpdate (index : nat) (value : string).

Definition applyEdit (cs : list string) (e : colorEdit) : list string :=
  match e with
  | EditAdd => addColor cs
  | EditRemove => removeColor cs
  | EditUpdate index value => updateColor index value cs
  end.

Definition applyEdits (cs : list string) (es : list colorEdit) : list string :=
  fold_left applyEdit es cs.

(* ================================================================== *)
(** ** Fitting the canvas (v1.6) *)

(** [x || d] on numbers: [d] when [x] is 0. *)
Definition orElse (x d : R) : R := if Req_dec_T x 0 then d else x.

(** [fit]: the pixel ratio in use and the backing size of one side, from
    the cap, [window.devicePixelRatio], the client size of the canvas and
    the inner size of the window. *)
Definition fitDpr (dprCap devicePixelRatio : R) : R :=
  Rmin dprCap (orElse devicePixelRatio 1).

Definition fitSide (dprCap devicePixelRatio client inner : R) : Z :=
  Js.Math_floor (orElse client inner * fitDpr dprCap devicePixelRatio).

(* ================================================================== *)
(** ** The animation engine of v1.1 *)

Module Engine11.

(** The record held by [stateRef]. *)
Record state : Type := mkState {
  t : R; rot : R; swirl : R; zoom : R; panX : R; panY : R
}.

Definition initialState : state := mkState 0 0 0 1 0 0.

(** The React state read by the loop closure. *)
Record controls : Type := mkControls {
  run : bool;
  patternSpeed : R;
  rotationSpeed : R;
  swirlRate : R;
  zoomEnabled : bool;
  zoomDirection : string;
  zoomSpeed : R
}.

(** The zoom step: [dir] is 1 for the direction ["in"] and -1 otherwise. *)
Definition zoomStep (c : controls) (dt z : R) : R :=
  let dir := if String.eqb (zoomDirection c) "in" then 1 else -1 in
  clamp (z * exp (dir * zoomSpeed c * dt)) 0.25 4.

(** The [if (run)] block. *)
Definition advance (c : controls) (dt : R) (S : state) : state :=
  mkState (t S + dt * patternSpeed c)
          (rot S + dt * rotationSpeed c)
          (swirl S + dt * swirlRate c)
          (if zoomEnabled c then zoomStep c dt (zoom S) else zoom S)
          (panX S) (panY S).

Record world : Type := mkWorld { ctl : controls; last : R; anim : state }.

(** One call of [loop(now)]; the time step is not clamped from above. *)
Definition loop (w : world) (now : R) : world :=
  let dt := Rmax 0 ((now - last w) / 1000) in
  mkWorld (ctl w) now
          (if run (ctl w) then advance (ctl w) dt (anim w) else anim w).

Inductive event : Type :=
| Frame (now : R)
| Rebind (c : controls) (now : R).

Definition step (w : world) (e : event) : world :=
  match e with
  | Frame now => loop w now
  | Rebind c now => mkWorld c now (anim w)
  end.

Definition steps (w : world) (es : list event) : world := fold_left step es w.

Definition initialWorld (c : controls) (now : R) : world :=
  mkWorld c now initialState.

(** [drawWedge]: the base line width, and the width set at a change of
    colour at sample parameter [tt]. *)
Definition baseLW (S : state) : R := Rmax 0.75 (2.5 / zoom S).

Definition lineWidthAt (S : state) (tt : R) : R :=
  baseLW S * (1 + 0.35 * sin (6 * tt + t S)).

End Engine11.

(* ================================================================== *)
(** ** The animation engine of v1.2 *)

Module Engine12.

Record state : Type := mkState {
  t : R; rot : R; swirl : R; patV : R; rotV : R; swlV : R
}.

Definition initialState : state := mkState 0 0 0 1.0 0.25 0.6.

Record controls : Type := mkControls {
  run : bool;
  patternSpeed : R;
  rotationSpeed : R;
  swirlRate : R;
  sensitivity : R
}.

(** The global scale of the targets. *)
Definition scale (c : controls) : R := clamp (sensitivity c) 0.1 1.0.

(** The [if (run)] block: targets, smoothing with [tau = 0.2], integration. *)
Definition advance (c : controls) (dt : R) (S : state) : state :=
  let tgtPat := patternSpeed c * scale c in
  let tgtRot := rotationSpeed c * scale c in
  let tgtSwl := swirlRate c * scale c in
  let tau := 0.2 in
  let alpha := 1 - exp (- dt / tau) in
  let patV' := patV S + (tgtPat - patV S) * alpha in
  let rotV' := rotV S + (tgtRot - rotV S) * alpha in
  let swlV' := swlV S + (tgtSwl - swlV S) * alpha in
  mkState (t S + dt * patV') (rot S + dt * rotV') (swirl S + dt * swlV')
          patV' rotV' swlV'.

Record world : Type := mkWorld { ctl : controls; last : R; anim : state }.

Definition dtOf (w : world) (now : R) : R :=
  Rmin 0.050 (Rmax 0 ((now - last w) / 1000)).

Definition loop (w : world) (now : R) : world :=
  mkWorld (ctl w) now
          (if run (ctl w) then advance (ctl w) (dtOf w now) (anim w)
           else anim w).

Inductive event : Type :=
| Frame (now : R)
| Rebind (c : controls) (now : R).

Definition step (w : world) (e : event) : world :=
  match e with
  | Frame now => loop w now
  | Rebind c now => mkWorld c now (anim w)
  end.

Definition steps (w : world) (es : list event) : world := fold_left step es w.

Definition initialWorld (c : controls) (now : R) : world :=
  mkWorld c now initialState.

(** The ranges of the three speed sliders. *)
Definition slidersOk (c : controls) : Prop :=
  0 <= patternSpeed c <= 2 /\ -0.5 <= rotationSpeed c <= 0.5 /\
  0 <= swirlRate c <= 2.

Definition eventOk (e : event) : Prop :=
  match e with
  | Frame _ => True
  | Rebind c _ => slidersOk c
  end.

Definition velocitiesOk (S : state) : Prop :=
  0 <= patV S <= 2 /\ -0.5 <= rotV S <= 0.5 /\ 0 <= swlV S <= 2.

End Engine12.

(* ================================================================== *)
(** * Properties *)

(** ** Elementary facts about the numeric primitives *)

Ltac destruct_Rle :=
  repeat match goal with
         | |- context [Rle_dec ?a ?b] =>
             lazymatch a with
             | context [Rle_dec _ _] => fail
             | _ => lazymatch b with
                    | context [Rle_dec _ _] => fail
                    | _ => destruct (Rle_dec a b)
                    end
             end
         end.

Lemma clamp_bounds (x a b : R) : a <= b -> a <= clamp x a b <= b.
Proof.
  intros Hab. unfold clamp, Rmin, Rmax.
  destruct (Rle_dec a x); destruct (Rle_dec b _); lra.
Qed.

Lemma clamp_inside (x a b : R) : a <= x <= b -> clamp x a b = x.
Proof.
  intros [Ha Hb]. unfold clamp, Rmin, Rmax.
  destruct (Rle_dec a x); destruct (Rle_dec b _); lra.
Qed.

Lemma clampZ_inside (x a b : Z) : (a <= x <= b)%Z -> clampZ x a b = x.
Proof. unfold clampZ. lia. Qed.

Lemma Math_floor_IZR (z : Z) : Js.Math_floor (IZR z) = z.
Proof.
  unfold Js.Math_floor. symmetry. apply Int_part_spec. lra.
Qed.

Lemma Math_round_IZR (z : Z) : Js.Math_round (IZR z) = z.
Proof.
  unfold Js.Math_round. symmetry. apply Int_part_spec. lra.
Qed.

Lemma toInt32_small (n : Z) :
  (-2147483648 <= n < 2147483648)%Z -> Js.toInt32 n = n.
Proof.
  intros H. unfold Js.toInt32.
  rewrite Z.mod_small by lia. lia.
Qed.

Lemma TAU_pos : 0 < TAU.
Proof. unfold TAU. pose proof PI_RGT_0. lra. Qed.

(* ================================================================== *)
(** ** Slider gain *)

Section SliderGain.

Variable k : R.
Hypothesis Hk : 0 < k.

Lemma exp_neg_lt_1 : exp (- k) < 1.
Proof.
  rewrite <- exp_0. apply exp_increasing. lra.
Qed.

Lemma sliderGain_at_0 : sliderGain 0 k = 0.
Proof.
  pose proof exp_neg_lt_1 as Hd.
  unfold sliderGain. rewrite clamp_inside by lra.
  rewrite Rmult_0_r, exp_0. field. lra.
Qed.

Lemma sliderGain_at_1 : sliderGain 1 k = 1.
Proof.
  pose proof exp_neg_lt_1 as Hd.
  unfold sliderGain. rewrite clamp_inside by lra.
  rewrite Rmult_1_r. field. lra.
Qed.

(** The exponential of the clamped input lies between [exp (- k)] and 1. *)
Lemma exp_clamped_range (x : R) :
  exp (- k) <= exp (- k * clamp x 0 1) <= 1.
Proof.
  destruct (clamp_bounds x 0 1) as [Hy0 Hy1]; [lra |].
  set (y := clamp x 0 1) in *. split.
  - destruct (Req_dec (- k) (- k * y)) as [<- | Hne]; [lra |].
    left. apply exp_increasing. nra.
  - rewrite <- exp_0. destruct (Req_dec (- k * y) 0) as [-> | Hne]; [lra |].
    left. apply exp_increasing. nra.
Qed.

Lemma sliderGain_range (x : R) : 0 <= sliderGain x k <= 1.
Proof.
  pose proof exp_neg_lt_1 as Hd.
  destruct (exp_clamped_range x) as [Hlo Hup].
  unfold sliderGain. split.
  - apply Rmult_le_pos; [lra |].
    left. apply Rinv_0_lt_compat. lra.
  - apply Rmult_le_reg_r with (1 - exp (- k)); [lra |].
    unfold Rdiv. rewrite Rmult_assoc, Rinv_l by lra. lra.
Qed.

(** C7. In exact real arithmetic, for every steepness [k > 0]:
    [sliderGain(0, k) = 0], [sliderGain(1, k) = 1], and [sliderGain(x, k)]
    lies in [[0, 1]] for every real input [x]. *)
Theorem sliderGain_endpoints_and_range :
  sliderGain 0 k = 0 /\
  sliderGain 1 k = 1 /\
  forall x : R, 0 <= sliderGain x k <= 1.
Proof.
  split; [| split].
  - apply sliderGain_at_0.
  - apply sliderGain_at_1.
  - intros x. apply sliderGain_range.
Qed.

End SliderGain.

Lemma sliderGain_endpoints_and_range_witness :
  sliderGain 0 defaultK = 0 /\
  sliderGain 1 defaultK = 1 /\
  forall x : R, 0 <= sliderGain x defaultK <= 1.
Proof.
  apply (sliderGain_endpoints_and_range defaultK). unfold defaultK. lra.
Defined.

(** C7, on doubles.  For the steepness [k = 2^-70], which is positive,
    [Math.exp(-k)] is [1], the denominator [1 - Math.exp(-k)] is [0], and
    both [sliderGain(0, k)] and [sliderGain(1, k)] are [0 / 0], that is
    [NaN], and neither [0] nor [1]. *)
Lemma sliderGain_tiny_k_is_nan :
  let k := 0x1p-70%float in
  PrimFloat.ltb 0 k = true /\
  PrimFloat.eqb (PrimFloat.sub 1 (F64.Math_exp (PrimFloat.opp k))) 0 = true /\
  PrimFloat.is_nan (F64.sliderGain 0 k) = true /\
  PrimFloat.is_nan (F64.sliderGain 1 k) = true /\
  PrimFloat.eqb (F64.sliderGain 0 k) 0 = false /\
  PrimFloat.eqb (F64.sliderGain 1 k) 1 = false.
Proof. vm_compute. repeat split. Qed.

(* ================================================================== *)
(** ** Palette length *)

Lemma addColor_spec (cs : list string) :
  ((List.length cs < 12)%nat /\ addColor cs = cs ++ ["#ffffff"%string]) \/
  ((12 <= List.length cs)%nat /\ addColor cs = cs).
Proof.
  unfold addColor. destruct (Nat.leb_spec 12 (List.length cs)); auto.
Qed.

Lemma removeColor_spec (cs : list string) :
  ((3 < List.length cs)%nat /\ removeColor cs = removelast cs) \/
  ((List.length cs <= 3)%nat /\ removeColor cs = cs).
Proof.
  unfold removeColor. destruct (Nat.leb_spec (List.length cs) 3); auto.
  left. split; [assumption |].
  destruct cs as [| c cs]; [reflexivity |].
  rewrite removelast_firstn_len. f_equal. simpl. lia.
Qed.

Example addColor_at_3 :
  addColor initialColors =
  ["#ff0055"; "#00d2ff"; "#ffd166"; "#ffffff"]%string.
Proof. reflexivity. Qed.

Example removeColor_at_3 : removeColor initialColors = initialColors.
Proof. reflexivity. Qed.

Example removeColor_after_add :
  applyOps initialColors [AddColor; AddColor; RemoveColor] =
  ["#ff0055"; "#00d2ff"; "#ffd166"; "#ffffff"]%string.
Proof. reflexivity. Qed.

Lemma applyOp_lengthOk (cs : list string) (op : paletteOp) :
  lengthOk cs -> lengthOk (applyOp cs op).
Proof.
  unfold lengthOk. intros H. destruct op; simpl.
  - destruct (addColor_spec cs) as [[Hl ->] | [Hl ->]]; [| lia].
    rewrite length_app. simpl. lia.
  - unfold removeColor. destruct (Nat.leb_spec (List.length cs) 3); [lia |].
    rewrite length_firstn. lia.
Qed.

Lemma applyOps_lengthOk (ops : list paletteOp) :
  forall cs, lengthOk cs -> lengthOk (applyOps cs ops).
Proof.
  unfold applyOps.
  induction ops as [| op ops IH]; intros cs H; simpl; [assumption |].
  apply IH, applyOp_lengthOk, H.
Qed.

(** C8. Starting from the initial three colours, after any finite sequence
    of [addColor] and [removeColor] the length of the colour list is
    within [[3, 12]]; [addColor] appends an entry exactly when the length
    is below 12 and [removeColor] drops the last entry exactly when the
    length is above 3. *)
Theorem palette_length_invariant :
  (forall ops : list paletteOp,
      (3 <= List.length (applyOps initialColors ops) <= 12)%nat) /\
  (forall cs : list string,
      ((List.length cs < 12)%nat /\ addColor cs = cs ++ ["#ffffff"%string]) \/
      ((12 <= List.length cs)%nat /\ addColor cs = cs)) /\
  (forall cs : list string,
      ((3 < List.length cs)%nat /\ removeColor cs = removelast cs) \/
      ((List.length cs <= 3)%nat /\ removeColor cs = cs)).
Proof.
  split; [| split].
  - intros ops. apply (applyOps_lengthOk ops initialColors).
    unfold lengthOk, initialColors. simpl. lia.
  - apply addColor_spec.
  - apply removeColor_spec.
Qed.

(* ================================================================== *)
(** ** The render loop *)

Lemma loop_anim_paused (w : world) (now elapsed : R) :
  run (ctl w) = false ->
  let w' := loop w now elapsed in
  ctl w' = ctl w /\
  t (anim w') = t (anim w) /\ rot (anim w') = rot (anim w) /\
  swirl (anim w') = swirl (anim w) /\ patV (anim w') = patV (anim w) /\
  rotV (anim w') = rotV (anim w) /\ swlV (anim w') = swlV (anim w).
Proof.
  intros Hrun. unfold loop. rewrite Hrun. simpl. repeat split.
Qed.

(** C5. While [run] is false, any number of consecutive frames leaves the
    fields [t], [rot], [swirl], [patV], [rotV] and [swlV] of the animation
    state as they were; only [fps] and [renderMs] are written. *)
Theorem paused_frames_hold_state (w : world) (es : list event)
  (Hrun : run (ctl w) = false) (Hframes : forallb isFrame es = true) :
  let w' := steps w es in
  t (anim w') = t (anim w) /\ rot (anim w') = rot (anim w) /\
  swirl (anim w') = swirl (anim w) /\ patV (anim w') = patV (anim w) /\
  rotV (anim w') = rotV (anim w) /\ swlV (anim w') = swlV (anim w).
Proof.
  revert w Hrun. unfold steps.
  induction es as [| e es IH]; intros w Hrun; simpl.
  - repeat split.
  - simpl in Hframes. apply andb_prop in Hframes as [He Hes].
    destruct e as [now elapsed | c now]; [| discriminate].
    destruct (loop_anim_paused w now elapsed Hrun)
      as (Hc & Ht & Hr & Hs & Hp & Hrv & Hsv).
    destruct (IH Hes (loop w now elapsed) Hrun)
      as (Ht' & Hr' & Hs' & Hp' & Hrv' & Hsv').
    cbv zeta in Ht, Hr, Hs, Hp, Hrv, Hsv.
    change (step w (Frame now elapsed)) with (loop w now elapsed).
    repeat split; congruence.
Qed.

Lemma paused_frames_hold_state_witness :
  let w := mkWorld (mkControls 12 6 false 0.6 0.3 0.5 0.6) 0 initialState in
  let w' := steps w [Frame 16 1; Frame 33 2; Frame 50 1] in
  t (anim w') = t (anim w) /\ rot (anim w') = rot (anim w) /\
  swirl (anim w') = swirl (anim w) /\ patV (anim w') = patV (anim w) /\
  rotV (anim w') = rotV (anim w) /\ swlV (anim w') = swlV (anim w).
Proof.
  apply (paused_frames_hold_state
           (mkWorld (mkControls 12 6 false 0.6 0.3 0.5 0.6) 0 initialState)
           [Frame 16 1; Frame 33 2; Frame 50 1]);
    reflexivity.
Defined.

Lemma resetBig_spec (x : R) :
  Rabs (resetBig x) <= 1e6 /\
  (1e6 < Rabs x -> resetBig x = 0) /\
  (Rabs x <= 1e6 -> resetBig x = x).
Proof.
  unfold resetBig.
  destruct (Rlt_dec 1e6 x) as [Hhi | Hhi];
    [| destruct (Rlt_dec x (-1e6)) as [Hlo | Hlo]].
  - rewrite Rabs_R0. repeat split; try lra.
    intros H. rewrite Rabs_right in H; lra.
  - rewrite Rabs_R0. repeat split; try lra.
    intros H. rewrite Rabs_left in H; lra.
  - repeat split.
    + unfold Rabs. destruct (Rcase_abs x); lra.
    + unfold Rabs. destruct (Rcase_abs x); lra.
Qed.

(** C6. After the integration step of a running frame the magnitudes of
    [S.t] and [S.swirl] are at most 1e6: an integrated value that exceeds
    1e6 in magnitude is replaced by 0, any other is left as it is. *)
Theorem drift_guard (w : world) (now elapsed : R)
  (Hrun : run (ctl w) = true) :
  let P := pursue (ctl w) (dtOf w now) (anim w) in
  let S' := anim (loop w now elapsed) in
  Rabs (t S') <= 1e6 /\ Rabs (swirl S') <= 1e6 /\
  (1e6 < Rabs (t P) -> t S' = 0) /\
  (Rabs (t P) <= 1e6 -> t S' = t P) /\
  (1e6 < Rabs (swirl P) -> swirl S' = 0) /\
  (Rabs (swirl P) <= 1e6 -> swirl S' = swirl P).
Proof.
  intros P S'. subst S'. unfold loop. rewrite Hrun.
  unfold integrate. fold P. simpl.
  destruct (resetBig_spec (t P)) as (Ht1 & Ht2 & Ht3).
  destruct (resetBig_spec (swirl P)) as (Hs1 & Hs2 & Hs3).
  repeat split; assumption.
Qed.

Lemma drift_guard_witness :
  let w := initialWorld defaultControls 0 in
  let P := pursue (ctl w) (dtOf w 16) (anim w) in
  let S' := anim (loop w 16 1) in
  Rabs (t S') <= 1e6 /\ Rabs (swirl S') <= 1e6 /\
  (1e6 < Rabs (t P) -> t S' = 0) /\
  (Rabs (t P) <= 1e6 -> t S' = t P) /\
  (1e6 < Rabs (swirl P) -> swirl S' = 0) /\
  (Rabs (swirl P) <= 1e6 -> swirl S' = swirl P).
Proof.
  apply (drift_guard (initialWorld defaultControls 0) 16 1). reflexivity.
Defined.

(* ================================================================== *)
(** ** Sample count *)

Lemma segsOf_slider (segments : Z) :
  (3 <= segments <= 64)%Z -> segsOf segments = segments.
Proof.
  intros H. unfold segsOf.
  rewrite toInt32_small by lia. apply clampZ_inside. lia.
Qed.

Lemma Rpower_one (y : R) : Rpower 1 y = 1.
Proof. unfold Rpower. rewrite ln_1, Rmult_0_r. apply exp_0. Qed.

Lemma Math_pow_pos (x y : R) : 0 < x -> Js.Math_pow x y = Rpower x y.
Proof.
  intros H. unfold Js.Math_pow. destruct (Rlt_dec 0 x); [reflexivity | contradiction].
Qed.

(** C4. For a complexity in [[1, 16]] and a segment count in [[3, 64]] the
    sample count of a frame is
    [max(260, floor((320 + 180 * complexity) * taper))] with
    [taper = clamp(theta / (2 pi / 12), 0.25, 1) ^ 0.75] and
    [theta = 2 pi / segments]; so it is at least 260. *)
Theorem sampleCount_formula (segments : Z) (complexity : R)
  (Hs : (3 <= segments <= 64)%Z) (Hc : 1 <= complexity <= 16) :
  let theta := 2 * PI / IZR segments in
  let taper := Rpower (clamp (theta / (2 * PI / 12)) 0.25 1) 0.75 in
  sampleCount segments complexity =
    Z.max 260 (Js.Math_floor ((320 + 180 * complexity) * taper)) /\
  (260 <= sampleCount segments complexity)%Z.
Proof.
  intros theta taper. split.
  - unfold sampleCount, thetaOf. rewrite segsOf_slider by assumption.
    replace TAU with (2 * PI) by (unfold TAU; ring). fold theta.
    rewrite Math_pow_pos; [reflexivity |].
    destruct (clamp_bounds (theta / (2 * PI / 12)) 0.25 1); lra.
  - unfold sampleCount. apply Z.le_max_l.
Qed.

Lemma sampleCount_formula_witness :
  let theta := 2 * PI / IZR 12 in
  let taper := Rpower (clamp (theta / (2 * PI / 12)) 0.25 1) 0.75 in
  sampleCount 12 6 =
    Z.max 260 (Js.Math_floor ((320 + 180 * 6) * taper)) /\
  (260 <= sampleCount 12 6)%Z.
Proof.
  apply (sampleCount_formula 12 6); [lia | lra].
Defined.

(** At the default controls a wedge has 1400 samples. *)
Lemma sampleCount_default : sampleCount 12 6 = 1400%Z.
Proof.
  unfold sampleCount, thetaOf. rewrite segsOf_slider by lia.
  pose proof TAU_pos as HT.
  replace (TAU / 12 / (TAU / 12)) with 1 by (field; lra).
  rewrite clamp_inside by lra.
  rewrite Math_pow_pos by lra.
  rewrite Rpower_one.
  replace ((320 + 180 * 6) * 1) with (IZR 1400) by lra.
  rewrite Math_floor_IZR. reflexivity.
Qed.

(* ================================================================== *)
(** ** Hexadecimal colours *)

Example hexToRgb_mixed_case : hexToRgb "#Ff0055" = mkRgb 255 0 85.
Proof. reflexivity. Qed.

Example hexToRgb_without_hash : hexToRgb "00d2ff" = mkRgb 0 210 255.
Proof. reflexivity. Qed.

Example hexToRgb_short_form : hexToRgb "#fff" = mkRgb 255 255 255.
Proof. reflexivity. Qed.

Example to_pads_one_digit : to 5 = "05"%string /\ to 171 = "ab"%string.
Proof. split; reflexivity. Qed.

Lemma byteOk_all : forallb byteOk (map Z.of_nat (seq 0 256)) = true.
Proof. vm_compute. reflexivity. Qed.

Lemma to_byte (v : Z) :
  (0 <= v <= 255)%Z ->
  exists c1 c2,
    to v = String c1 (String c2 EmptyString) /\
    isHexDigit c1 = true /\ isHexDigit c2 = true /\
    parseInt16 (String c1 (String c2 EmptyString)) = v.
Proof.
  intros Hv.
  assert (Hok : byteOk v = true).
  { pose proof byteOk_all as Hall. rewrite forallb_forall in Hall.
    apply Hall. apply in_map_iff. exists (Z.to_nat v).
    split; [lia |]. apply in_seq. lia. }
  unfold byteOk in Hok.
  destruct (to v) as [| c1 [| c2 [| c3 rest]]] eqn:E; try discriminate.
  apply andb_prop in Hok as [Hok Hp]. apply andb_prop in Hok as [H1 H2].
  exists c1, c2. repeat split; try assumption.
  apply Z.eqb_eq. exact Hp.
Qed.

Lemma hexRegExp_exec_six (c1 c2 c3 c4 c5 c6 : ascii) :
  isHexDigit c1 = true -> isHexDigit c2 = true -> isHexDigit c3 = true ->
  isHexDigit c4 = true -> isHexDigit c5 = true -> isHexDigit c6 = true ->
  hexRegExp_exec
    (String "#" (String c1 (String c2 (String c3 (String c4 (String c5
       (String c6 EmptyString))))))) =
  Some (String c1 (String c2 EmptyString),
        String c3 (String c4 EmptyString),
        String c5 (String c6 EmptyString)).
Proof.
  intros H1 H2 H3 H4 H5 H6. unfold hexRegExp_exec.
  simpl. rewrite H1, H2, H3, H4, H5, H6. reflexivity.
Qed.

(** What the round trip through [rgbToHex] and [hexToRgb] does to integral
    channels in [[0, 255]]: green and blue come back exchanged. *)
Lemma hexToRgb_rgbToHex (r g b : Z) :
  (0 <= r <= 255)%Z -> (0 <= g <= 255)%Z -> (0 <= b <= 255)%Z ->
  hexToRgb (rgbToHex (IZR r) (IZR g) (IZR b)) = mkRgb (IZR r) (IZR b) (IZR g).
Proof.
  intros Hr Hg Hb. unfold rgbToHex.
  rewrite !Math_round_IZR, !clampZ_inside by assumption.
  destruct (to_byte r Hr) as (r1 & r2 & -> & Hr1 & Hr2 & Pr).
  destruct (to_byte g Hg) as (g1 & g2 & -> & Hg1 & Hg2 & Pg).
  destruct (to_byte b Hb) as (b1 & b2 & -> & Hb1 & Hb2 & Pb).
  unfold hexToRgb.
  change ("#" ++ String r1 (String r2 EmptyString)
              ++ String b1 (String b2 EmptyString)
              ++ String g1 (String g2 EmptyString))%string
    with (String "#" (String r1 (String r2 (String b1 (String b2
            (String g1 (String g2 EmptyString))))))).
  rewrite hexRegExp_exec_six by assumption.
  rewrite Pr, Pg, Pb. reflexivity.
Qed.

Lemma rgbToHex_green : rgbToHex 0 255 0 = "#0000ff"%string.
Proof.
  unfold rgbToHex.
  rewrite (Math_round_IZR 0), (Math_round_IZR 255). reflexivity.
Qed.

(** C3. The round trip of pure green: [rgbToHex(0, 255, 0)] is the string
    ["#0000ff"], which [hexToRgb] reads as [{r: 0, g: 0, b: 255}] and not as
    the triple that went in. *)
Theorem hex_roundtrip_green :
  rgbToHex 0 255 0 = "#0000ff"%string /\
  hexToRgb (rgbToHex 0 255 0) = mkRgb 0 0 255 /\
  hexToRgb (rgbToHex 0 255 0) <> mkRgb 0 255 0.
Proof.
  split; [exact rgbToHex_green |].
  assert (E : hexToRgb (rgbToHex 0 255 0) = mkRgb 0 0 255).
  { rewrite rgbToHex_green. reflexivity. }
  split; [exact E |].
  rewrite E. intros H. injection H as H. lra.
Qed.

Lemma isHexDigit_hexChar (c : ascii) : isHexDigit c = true <-> hexChar c.
Proof.
  assert (E : isHexDigit c =
              existsb (Ascii.eqb c)
                      (list_ascii_of_string "0123456789abcdefABCDEF")).
  { destruct c as [[] [] [] [] [] [] [] []]; reflexivity. }
  rewrite E. unfold hexChar. rewrite existsb_exists. split.
  - intros (x & Hin & Heq). apply Ascii.eqb_eq in Heq. subst x. exact Hin.
  - intros Hin. exists c. split; [exact Hin | apply Ascii.eqb_refl].
Qed.

Lemma sixHex_body (body : string) :
  (match body with
   | String c1 (String c2 (String c3 (String c4 (String c5 (String c6 EmptyString))))) =>
       forallb isHexDigit [c1; c2; c3; c4; c5; c6]
   | _ => false
   end) = true <->
  String.length body = 6%nat /\ Forall hexChar (list_ascii_of_string body).
Proof.
  split.
  - destruct body as [| c1 [| c2 [| c3 [| c4 [| c5 [| c6 [| c7 rest]]]]]]];
      try discriminate.
    intros H. split; [reflexivity |].
    rewrite forallb_forall in H. simpl.
    repeat apply Forall_cons; try apply Forall_nil;
      apply isHexDigit_hexChar, H; simpl; tauto.
  - intros [Hlen Hall].
    destruct body as [| c1 [| c2 [| c3 [| c4 [| c5 [| c6 [| c7 rest]]]]]]];
      try discriminate.
    simpl in Hall. rewrite forallb_forall. intros c Hc.
    rewrite Forall_forall in Hall. apply isHexDigit_hexChar, Hall, Hc.
Qed.


Lemma stripHash_spec (str : string) :
  let body := match str with String "#"%char rest => rest | _ => str end in
  str = String "#" body \/
  (body = str /\ forall rest, str <> String "#" rest).
Proof.
  destruct str as [| c rest]; simpl.
  - right. split; [reflexivity | discriminate].
  - destruct (Ascii.eqb_spec c "#"%char) as [-> | Hne].
    + left. reflexivity.
    + right. split.
      * destruct c as [[] [] [] [] [] [] [] []]; try reflexivity.
        contradiction Hne. reflexivity.
      * intros rest' E. injection E as E1 E2. contradiction.
Qed.

(** The matcher accepts exactly the strings of [hexColorString]. *)
Lemma hexRegExp_exec_matches (str : string) :
  hexRegExp_exec str <> None <-> hexColorString str.
Proof.
  unfold hexRegExp_exec.
  pose proof (stripHash_spec str) as Hbody. cbv zeta in Hbody.
  set (body := match str with String "#"%char rest => rest | _ => str end) in *.
  pose proof (sixHex_body body) as Hsix.
  assert (Hiff : (match body with
     | String c1 (String c2 (String c3 (String c4 (String c5 (String c6 EmptyString))))) =>
       if forallb isHexDigit [c1; c2; c3; c4; c5; c6]
        then Some (String c1 (String c2 EmptyString),
                   String c3 (String c4 EmptyString),
                   String c5 (String c6 EmptyString))
        else None
     | _ => None end) <> None <->
     String.length body = 6%nat /\ Forall hexChar (list_ascii_of_string body)).
  { rewrite <- Hsix.
    destruct body as [| c1 [| c2 [| c3 [| c4 [| c5 [| c6 [| c7 rest]]]]]]];
      try (split; [intros H; contradiction H; reflexivity | discriminate]).
    destruct (forallb isHexDigit [c1; c2; c3; c4; c5; c6]);
      split; try discriminate; try reflexivity.
    intros H; contradiction H; reflexivity. }
  rewrite Hiff. unfold hexColorString. split.
  - intros [Hlen Hall]. exists body. split; [| split; assumption].
    destruct Hbody as [E | [E _]]; [right | left]; congruence.
  - intros (body' & Hstr & Hlen & Hall).
    assert (Hfirst : forall rest, body' <> String "#" rest).
    { intros rest E. subst body'. simpl in Hall.
      inversion Hall as [| ? ? Hc _]. apply isHexDigit_hexChar in Hc.
      discriminate. }
    assert (body' = body) as ->; [| split; assumption].
    destruct Hbody as [E | [E Hno]], Hstr as [E' | E'].
    + exfalso. apply (Hfirst body). congruence.
    + congruence.
    + congruence.
    + exfalso. apply (Hno body'). exact E'.
Qed.

Lemma hexToRgb_invalid (str : string) :
  ~ hexColorString str -> hexToRgb str = white.
Proof.
  intros Hbad. unfold hexToRgb.
  destruct (hexRegExp_exec str) as [[[m1 m2] m3] |] eqn:E; [| reflexivity].
  contradiction Hbad. apply hexRegExp_exec_matches. rewrite E. discriminate.
Qed.

Lemma rgbToHsl_white : rgbToHsl 255 255 255 = mkHsl 0 0 1.
Proof.
  unfold rgbToHsl.
  replace (255 / 255) with 1 by lra.
  replace (Rmax (Rmax 1 1) 1) with 1 by (unfold Rmax; destruct_Rle; lra).
  replace (Rmin (Rmin 1 1) 1) with 1 by (unfold Rmin; destruct_Rle; lra).
  destruct (Req_dec_T 1 1) as [_ | Hne]; [| contradiction Hne; reflexivity].
  f_equal. lra.
Qed.

Lemma boostedS_zero (boost : R) : boostedS 0 boost = 0.
Proof.
  unfold boostedS. rewrite !Rmult_0_l. apply clamp_inside. lra.
Qed.

Lemma rgbToHex_white : rgbToHex 255 255 255 = "#ffffff"%string.
Proof.
  unfold rgbToHex. rewrite (Math_round_IZR 255). reflexivity.
Qed.

(** C10. A string that is not a six-hex-digit colour (with an optional
    leading ["#"]) is read by [hexToRgb] as white, [{r: 255, g: 255,
    b: 255}], and [boostSaturation] turns it into ["#ffffff"].  In the
    palette this makes every such entry but the first ["#ffffff"]; the
    first entry is handed on as it is. *)
Theorem invalid_hex_is_white (str : string) (boost : R)
  (Hbad : ~ hexColorString str) :
  hexToRgb str = white /\
  boostSaturation str boost = "#ffffff"%string /\
  (forall (colors : list string) (i : nat),
      nth_error colors (S i) = Some str ->
      nth_error (paletteOf colors boost) (S i) = Some "#ffffff"%string) /\
  (forall rest : list string,
      nth_error (paletteOf (str :: rest) boost) 0 = Some str).
Proof.
  pose proof (hexToRgb_invalid str Hbad) as Hw.
  assert (Hboost : boostSaturation str boost = "#ffffff"%string).
  { unfold boostSaturation. rewrite Hw. unfold white. simpl.
    rewrite rgbToHsl_white. simpl. rewrite boostedS_zero.
    unfold hslToRgb.
    destruct (Req_dec_T 0 0) as [_ | Hne]; [| contradiction Hne; reflexivity].
    simpl. rewrite Rmult_1_l. apply rgbToHex_white. }
  split; [exact Hw |]. split; [exact Hboost |]. split.
  - intros colors i Hi. destruct colors as [| c0 rest]; [discriminate |].
    simpl in *. rewrite nth_error_map, Hi. simpl. rewrite Hboost. reflexivity.
  - intros rest. reflexivity.
Qed.

Lemma not_hex_12345g : ~ hexColorString "#12345g".
Proof.
  intros H. apply hexRegExp_exec_matches in H. apply H. reflexivity.
Qed.

Lemma invalid_hex_is_white_witness :
  ~ hexColorString "#12345g" /\
  hexToRgb "#12345g" = white /\
  boostSaturation "#12345g" 1.7 = "#ffffff"%string /\
  (forall (colors : list string) (i : nat),
      nth_error colors (S i) = Some "#12345g"%string ->
      nth_error (paletteOf colors 1.7) (S i) = Some "#ffffff"%string) /\
  (forall rest : list string,
      nth_error (paletteOf ("#12345g"%string :: rest) 1.7) 0
      = Some "#12345g"%string).
Proof.
  split; [exact not_hex_12345g |].
  apply (invalid_hex_is_white "#12345g" 1.7 not_hex_12345g).
Defined.

(** C10, the first entry.  With the colour list [["zzz"; "#00d2ff";
    "#ffd166"]] the first entry of the palette is ["zzz"] still: it is no
    colour string, and it has not become ["#ffffff"]. *)
Lemma invalid_first_entry_is_kept :
  let colors := ["zzz"; "#00d2ff"; "#ffd166"]%string in
  ~ hexColorString "zzz" /\
  hexToRgb "zzz" = white /\
  nth_error (paletteOf colors 1.7) 0 = Some "zzz"%string /\
  ~ hexColorString (nth 0 (paletteOf colors 1.7) EmptyString) /\
  nth 0 (paletteOf colors 1.7) EmptyString <> "#ffffff"%string.
Proof.
  assert (Hbad : ~ hexColorString "zzz").
  { intros H. apply hexRegExp_exec_matches in H. apply H. reflexivity. }
  cbv zeta. simpl paletteOf. simpl nth. simpl nth_error.
  split; [exact Hbad |]. split; [reflexivity |]. split; [reflexivity |].
  split; [exact Hbad | discriminate].
Qed.

(* ================================================================== *)
(** ** Saturation boost *)

Lemma hexDigit_range (c : ascii) :
  isHexDigit c = true -> exists d, hexDigit c = Some d /\ (0 <= d <= 15)%Z.
Proof.
  unfold isHexDigit, hexDigit.
  set (n := Z.of_N (N_of_ascii c)).
  destruct ((48 <=? n)%Z && (n <=? 57)%Z) eqn:E1;
    [| destruct ((97 <=? n)%Z && (n <=? 102)%Z) eqn:E2;
       [| destruct ((65 <=? n)%Z && (n <=? 70)%Z) eqn:E3]];
    intros H; try discriminate; eexists; (split; [reflexivity |]);
    match goal with
    | E : (_ && _)%bool = true |- _ => apply andb_prop in E as [Ha Hb]
    end;
    apply Z.leb_le in Ha, Hb; lia.
Qed.

Lemma parseInt16_pair (c1 c2 : ascii) :
  isHexDigit c1 = true -> isHexDigit c2 = true ->
  (0 <= parseInt16 (String c1 (String c2 EmptyString)) <= 255)%Z.
Proof.
  intros H1 H2.
  destruct (hexDigit_range c1 H1) as (d1 & E1 & R1).
  destruct (hexDigit_range c2 H2) as (d2 & E2 & R2).
  unfold parseInt16. simpl. rewrite E1, E2. lia.
Qed.

Lemma hexToRgb_range (hex : string) :
  let c := hexToRgb hex in
  channelOk (r c) /\ channelOk (g c) /\ channelOk (b c).
Proof.
  unfold hexToRgb, channelOk.
  destruct (hexRegExp_exec hex) as [[[m1 m2] m3] |] eqn:E; simpl; [| lra].
  unfold hexRegExp_exec in E.
  set (body := match hex with String "#"%char rest => rest | _ => hex end) in E.
  destruct body as [| c1 [| c2 [| c3 [| c4 [| c5 [| c6 [| c7 rest]]]]]]];
    try discriminate.
  destruct (forallb isHexDigit [c1; c2; c3; c4; c5; c6]) eqn:F; [| discriminate].
  injection E as <- <- <-.
  rewrite forallb_forall in F.
  assert (H1 := F c1). assert (H2 := F c2). assert (H3 := F c3).
  assert (H4 := F c4). assert (H5 := F c5). assert (H6 := F c6).
  simpl in H1, H2, H3, H4, H5, H6.
  pose proof (parseInt16_pair c1 c2) as P1.
  pose proof (parseInt16_pair c3 c4) as P2.
  pose proof (parseInt16_pair c5 c6) as P3.
  repeat split; (apply IZR_le; first [apply P1 | apply P2 | apply P3]; tauto).
Qed.

(** The saturation computed by [rgbToHsl] from channels in [[0, 255]] lies
    in [[0, 1]]. *)
Lemma rgbToHsl_s_range (r g b : R) :
  channelOk r -> channelOk g -> channelOk b ->
  0 <= s (rgbToHsl r g b) <= 1.
Proof.
  unfold channelOk. intros Hr Hg Hb. unfold rgbToHsl.
  set (r' := r / 255). set (g' := g / 255). set (b' := b / 255).
  assert (Hr' : 0 <= r' <= 1) by (subst r'; lra).
  assert (Hg' : 0 <= g' <= 1) by (subst g'; lra).
  assert (Hb' : 0 <= b' <= 1) by (subst b'; lra).
  set (M := Rmax (Rmax r' g') b'). set (m := Rmin (Rmin r' g') b').
  assert (HM : 0 <= m /\ m <= M /\ M <= 1).
  { subst M m. unfold Rmax, Rmin. destruct_Rle; lra. }
  clearbody M m. cbv zeta.
  destruct (Req_dec_T M m) as [E | Hne]; simpl; [lra |].
  assert (Hd : 0 < M - m) by lra.
  destruct (Rlt_dec (1 / 2) ((M + m) / 2)) as [Hl | Hl].
  - assert (Hden : 0 < 2 - M - m) by lra.
    split.
    + apply Rmult_le_pos; [lra | left; apply Rinv_0_lt_compat; lra].
    + apply Rmult_le_reg_r with (2 - M - m); [lra |].
      unfold Rdiv. rewrite Rmult_assoc, Rinv_l by lra. lra.
  - assert (Hden : 0 < M + m) by lra.
    split.
    + apply Rmult_le_pos; [lra | left; apply Rinv_0_lt_compat; lra].
    + apply Rmult_le_reg_r with (M + m); [lra |].
      unfold Rdiv. rewrite Rmult_assoc, Rinv_l by lra. lra.
Qed.

Lemma satOf_range (hex : string) : 0 <= satOf hex <= 1.
Proof.
  unfold satOf.
  destruct (hexToRgb_range hex) as (Hr & Hg & Hb).
  apply rgbToHsl_s_range; assumption.
Qed.

Lemma boostedS_range (x boost : R) : 0 <= boostedS x boost <= 1.
Proof. unfold boostedS. apply clamp_bounds. lra. Qed.

Lemma boostedS_saturated (boost : R) : 1 <= boost -> boostedS 1 boost = 1.
Proof.
  intros Hb. unfold boostedS, clamp.
  replace (1 * (1 + 1 / 2 * (1 - 1)) * boost) with boost by lra.
  unfold Rmin, Rmax. destruct_Rle; lra.
Qed.

Lemma hexToRgb_red : hexToRgb "#ff0000" = mkRgb 255 0 0.
Proof. reflexivity. Qed.

Lemma satOf_red : satOf "#ff0000" = 1.
Proof.
  unfold satOf. rewrite hexToRgb_red. simpl. unfold rgbToHsl.
  replace (255 / 255) with 1 by lra. replace (0 / 255) with 0 by lra.
  replace (Rmax (Rmax 1 0) 0) with 1 by (unfold Rmax; destruct_Rle; lra).
  replace (Rmin (Rmin 1 0) 0) with 0 by (unfold Rmin; destruct_Rle; lra).
  cbv zeta.
  destruct (Req_dec_T 1 0) as [E | _]; [lra |].
  destruct (Rlt_dec (1 / 2) ((1 + 0) / 2)) as [H | _]; [lra |].
  simpl. lra.
Qed.

(** *** A boosted colour

    The order of the channels in [rgbToHex] shows in [boostSaturation]:
    pure yellow comes back as magenta. *)

Ltac no_test x :=
  lazymatch x with
  | context [Rlt_dec _ _] => fail
  | context [Req_dec_T _ _] => fail
  | _ => idtac
  end.

Ltac decide_R :=
  repeat match goal with
         | |- context [Rlt_dec ?a ?b] =>
             no_test a; no_test b;
             destruct (Rlt_dec a b); [try (exfalso; lra) | try (exfalso; lra)]
         | |- context [Req_dec_T ?a ?b] =>
             no_test a; no_test b;
             destruct (Req_dec_T a b); [try (exfalso; lra) | try (exfalso; lra)]
         end.

Lemma rgbToHsl_yellow : rgbToHsl 255 255 0 = mkHsl (1 / 6) 1 (1 / 2).
Proof.
  unfold rgbToHsl.
  replace (255 / 255) with 1 by lra. replace (0 / 255) with 0 by lra.
  replace (Rmax (Rmax 1 1) 0) with 1 by (unfold Rmax; destruct_Rle; lra).
  replace (Rmin (Rmin 1 1) 0) with 0 by (unfold Rmin; destruct_Rle; lra).
  cbv zeta. decide_R. f_equal; lra.
Qed.

Lemma hslToRgb_yellow : hslToRgb (1 / 6) 1 (1 / 2) = mkRgb 255 255 0.
Proof.
  unfold hslToRgb, hue2rgb. decide_R. f_equal; lra.
Qed.

Example boostSaturation_yellow :
  boostSaturation "#ffff00" 1.7 = "#ff00ff"%string.
Proof.
  unfold boostSaturation.
  change (hexToRgb "#ffff00") with (mkRgb 255 255 0). simpl r. simpl g. simpl b.
  rewrite rgbToHsl_yellow. simpl h. simpl s. simpl l.
  rewrite boostedS_saturated by lra.
  rewrite hslToRgb_yellow. simpl r. simpl g. simpl b.
  unfold rgbToHex. rewrite (Math_round_IZR 255), (Math_round_IZR 0).
  reflexivity.
Qed.

(* ================================================================== *)
(** ** Rotation wrap-around *)

Lemma Math_trunc_spec (q : R) :
  (0 <= q -> IZR (Js.Math_trunc q) <= q < IZR (Js.Math_trunc q) + 1) /\
  (q < 0 -> q <= IZR (Js.Math_trunc q) < q + 1).
Proof.
  unfold Js.Math_trunc. split; intros Hq.
  - destruct (Rle_dec 0 q) as [_ | Hn]; [| contradiction].
    destruct (base_Int_part q). lra.
  - destruct (Rle_dec 0 q) as [Hp | _]; [lra |].
    destruct (base_Int_part (- q)). rewrite opp_IZR. lra.
Qed.

Lemma rem_range (x T : R) : 0 < T -> - T < Js.rem x T < T.
Proof.
  intros HT. unfold Js.rem.
  set (q := x / T). assert (Hx : x = T * q) by (subst q; field; lra).
  destruct (Math_trunc_spec q) as [Hpos Hneg].
  destruct (Rle_dec 0 q) as [Hq | Hq].
  - specialize (Hpos Hq). clearbody q. subst x. nra.
  - assert (Hq' : q < 0) by lra. specialize (Hneg Hq'). clearbody q. subst x. nra.
Qed.

Lemma rem_range_pos (x T : R) : 0 < T -> 0 <= x -> 0 <= Js.rem x T < T.
Proof.
  intros HT H0. unfold Js.rem.
  set (q := x / T). assert (Hx : x = T * q) by (subst q; field; lra).
  assert (Hq : 0 <= q).
  { subst q. apply Rmult_le_pos; [lra | left; apply Rinv_0_lt_compat; lra]. }
  destruct (Math_trunc_spec q) as [Hpos _]. specialize (Hpos Hq).
  clearbody q. subst x. nra.
Qed.

Lemma wrap_range (x : R) : 0 <= Js.rem (Js.rem x TAU + TAU) TAU < TAU.
Proof.
  pose proof TAU_pos as HT.
  pose proof (rem_range x TAU HT).
  apply rem_range_pos; lra.
Qed.

Lemma foldRot_spec (x : R) :
  (TAU < x \/ x < - TAU -> 0 <= foldRot x < TAU) /\
  (- TAU <= x <= TAU -> foldRot x = x).
Proof.
  unfold foldRot. pose proof (wrap_range x) as Hw.
  destruct (Rlt_dec TAU x); [| destruct (Rlt_dec x (- TAU))];
    split; intros H; try lra.
Qed.

Lemma foldRot_bounded (x : R) : - TAU <= foldRot x <= TAU.
Proof.
  pose proof TAU_pos as HT.
  destruct (foldRot_spec x) as [Hout Hin].
  destruct (Rlt_dec TAU x) as [H1 | H1].
  - specialize (Hout (or_introl H1)). lra.
  - destruct (Rlt_dec x (- TAU)) as [H2 | H2].
    + specialize (Hout (or_intror H2)). lra.
    + rewrite Hin; lra.
Qed.

Lemma loop_rot (w : world) (now elapsed : R) :
  rot (anim (loop w now elapsed)) =
  if run (ctl w)
  then foldRot (rot (pursue (ctl w) (dtOf w now) (anim w)))
  else rot (anim w).
Proof.
  unfold loop. destruct (run (ctl w)); reflexivity.
Qed.

Lemma step_rot_bounded (w : world) (e : event) :
  - TAU <= rot (anim w) <= TAU -> - TAU <= rot (anim (step w e)) <= TAU.
Proof.
  intros H. destruct e as [now elapsed | c now]; [| exact H].
  change (step w (Frame now elapsed)) with (loop w now elapsed).
  rewrite loop_rot. destruct (run (ctl w)); [apply foldRot_bounded | exact H].
Qed.

Lemma steps_rot_bounded (es : list event) :
  forall w, - TAU <= rot (anim w) <= TAU ->
            - TAU <= rot (anim (steps w es)) <= TAU.
Proof.
  unfold steps. induction es as [| e es IH]; intros w H; simpl; [exact H |].
  apply IH, step_rot_bounded, H.
Qed.

(** C2, as the code has it.  From the initial state, whatever the frames
    and the control settings, the rotation angle lies within
    [[-2 pi, 2 pi]] after every frame; the integration step folds it into
    [[0, 2 pi)] when the integrated angle is beyond [2 pi] in magnitude and
    leaves it as it is otherwise. *)
Theorem rot_stays_within_one_turn :
  (forall (c : controls) (now0 : R) (es : list event),
      - TAU <= rot (anim (steps (initialWorld c now0) es)) <= TAU) /\
  (forall (w : world) (now elapsed : R),
      run (ctl w) = true ->
      let x := rot (pursue (ctl w) (dtOf w now) (anim w)) in
      let rot' := rot (anim (loop w now elapsed)) in
      (TAU < x \/ x < - TAU -> 0 <= rot' < TAU) /\
      (- TAU <= x <= TAU -> rot' = x)).
Proof.
  split.
  - intros c now0 es. apply steps_rot_bounded.
    simpl. pose proof TAU_pos. lra.
  - intros w now elapsed Hrun x rot'. subst rot'.
    rewrite loop_rot, Hrun. apply foldRot_spec.
Qed.

(** *** A run that leaves [[0, 2 pi)] *)

Lemma pursue_rot (c : controls) (dt : R) (S : state) :
  rotV (pursue c dt S) = rotV S + (tgtRotOf c - rotV S) * smoothing dt /\
  rot (pursue c dt S) = rot S + dt * rotV (pursue c dt S).
Proof. split; reflexivity. Qed.

Lemma loop_rotV (w : world) (now elapsed : R) :
  run (ctl w) = true ->
  rotV (anim (loop w now elapsed)) =
  rotV (pursue (ctl w) (dtOf w now) (anim w)).
Proof.
  intros Hrun. unfold loop. rewrite Hrun. reflexivity.
Qed.

Lemma tgtRotOf_reverse : tgtRotOf reverseControls = -0.288.
Proof.
  unfold tgtRotOf, reverseControls, sensShape, capRot, Js.Math_abs,
    Js.Math_sign. simpl.
  rewrite clamp_inside by lra. rewrite Math_pow_pos, Rpower_one by lra.
  replace (Rabs (-1)) with 1
    by (rewrite Rabs_left by lra; lra).
  rewrite sliderGain_at_1 by (unfold defaultK; lra).
  destruct (Rlt_dec 0 (-1)) as [H | _]; [lra |].
  destruct (Rlt_dec (-1) 0) as [_ | H]; [| lra].
  lra.
Qed.

Lemma smoothing_50ms : 5 / 23 < smoothing 0.050 < 1.
Proof.
  unfold smoothing.
  match goal with
  | |- context [exp ?x] => replace x with (- (5 / 18)) by lra
  end.
  rewrite exp_Ropp.
  pose proof (exp_ineq1 (5 / 18)) as H1.
  assert (H2 : 23 / 18 < exp (5 / 18)) by lra.
  assert (H3 : 0 < / exp (5 / 18)) by (apply Rinv_0_lt_compat; lra).
  assert (H4 : / exp (5 / 18) < / (23 / 18))
    by (apply Rinv_lt_contravar; [nra | exact H2]).
  replace (/ (23 / 18)) with (18 / 23) in H4 by lra.
  lra.
Qed.

Lemma reverseRun_rot_negative : rot (anim reverseRun) < 0.
Proof.
  pose proof TAU_pos as HT.
  assert (HT6 : 6 < TAU) by (unfold TAU; pose proof PI2_3_2; lra).
  pose proof smoothing_50ms as [Ha1 Ha2].
  unfold reverseRun, steps. simpl fold_left.
  set (w0 := initialWorld reverseControls 0).
  set (w1 := loop w0 50 1).
  assert (Hdt0 : dtOf w0 50 = 0.050).
  { unfold dtOf, dtRawOf, w0. simpl.
    unfold Rmin, Rmax. destruct_Rle; lra. }
  assert (Hdt1 : dtOf w1 100 = 0.050).
  { unfold dtOf, dtRawOf, w1, loop. simpl.
    unfold Rmin, Rmax. destruct_Rle; lra. }
  set (a := smoothing 0.050) in *.
  set (v1 := 0.12 + (-0.288 - 0.12) * a).
  set (v2 := v1 + (-0.288 - v1) * a).
  assert (HV1 : rotV (anim w1) = v1).
  { unfold w1. rewrite loop_rotV by reflexivity.
    destruct (pursue_rot (ctl w0) (dtOf w0 50) (anim w0)) as [Ev _].
    rewrite Ev, Hdt0. simpl ctl. rewrite tgtRotOf_reverse. reflexivity. }
  assert (HR1 : rot (anim w1) = 0.050 * v1).
  { unfold w1. rewrite loop_rot. simpl run. cbv iota.
    destruct (pursue_rot (ctl w0) (dtOf w0 50) (anim w0)) as [Ev Er].
    rewrite Er, Ev, Hdt0. simpl ctl. rewrite tgtRotOf_reverse.
    simpl rot. simpl rotV. fold a. fold v1.
    destruct (foldRot_spec (0 + 0.050 * v1)) as [_ Hin].
    rewrite Hin; [lra |]. subst v1. nra. }
  rewrite loop_rot. simpl run. cbv iota.
  destruct (pursue_rot (ctl w1) (dtOf w1 100) (anim w1)) as [Ev Er].
  rewrite Er, Ev, Hdt1, HV1, HR1. simpl ctl. rewrite tgtRotOf_reverse.
  fold a. fold v2.
  destruct (foldRot_spec (0.050 * v1 + 0.050 * v2)) as [_ Hin].
  rewrite Hin; subst v2 v1; nra.
Qed.

(** C2, as it is stated, fails: with the rotation slider at -1 the second
    frame already leaves the rotation angle below 0. *)
Lemma rot_leaves_half_open_turn :
  ~ (0 <= rot (anim reverseRun) < TAU).
Proof.
  pose proof reverseRun_rot_negative. lra.
Qed.

(* ================================================================== *)
(** ** The harmonic sum of the wedge renderer *)

Lemma cell_table (L : nat) (f : nat -> R) (j : nat) :
  (j <= L)%nat -> cell (table L f) j = f j.
Proof.
  intros Hj. unfold cell, table.
  rewrite (nth_indep _ 0 (f O)) by (rewrite length_map, length_seq; lia).
  rewrite map_nth, seq_nth by lia. reflexivity.
Qed.

(** Each harmonic of v1.6 is the sine of the cached base phase plus the
    frame phase. *)
Lemma Rnorm_angle_addition (L : nat) (theta c : R) (S : state) (j : nat) :
  (j <= L)%nat ->
  let tj := INR j / INR L in
  Rnorm (buildGeo L theta c) S j =
  0.55 + 0.30 * sin (k1 c * tj + a1 S)
       + 0.15 * sin (k2 c * tj + a2 S)
       + 0.10 * sin (k3 c * (tj * 1.2) + a3 S).
Proof.
  intros Hj tj. unfold Rnorm, buildGeo. simpl.
  rewrite !cell_table by exact Hj. fold tj.
  rewrite !sin_plus. reflexivity.
Qed.

Lemma geoOf_default :
  geoOf defaultControls = buildGeo 1400 (thetaOf 12) 6.
Proof.
  unfold geoOf, defaultControls. simpl.
  rewrite sampleCount_default. reflexivity.
Qed.

Lemma half_sample : INR 700 / INR 1400 = 0.5.
Proof.
  rewrite !INR_IZR_INZ.
  change (Z.of_nat 700) with 700%Z. change (Z.of_nat 1400) with 1400%Z.
  lra.
Qed.

(** *** Numeric bounds for the scenario at the sample [t = 0.5] *)

Lemma PI_upper : PI < 3.15.
Proof.
  destruct (PI_2_3_7_ineq 1) as [_ H].
  unfold sum_f_R0, tg_alt, PI_2_3_7_tg, Ratan_seq in H.
  simpl in H. lra.
Qed.

Lemma PI_lower : 3 < PI.
Proof. pose proof PI2_3_2. lra. Qed.

Lemma sin_8_8 : 0 < sin 8.8 < 0.65.
Proof.
  pose proof PI_upper as Hu. pose proof PI_lower as Hl.
  replace 8.8 with (PI - (3 * PI - 8.8) + 2 * INR 1 * PI) by (simpl; lra).
  rewrite sin_period, sin_PI_x.
  pose proof (sin_lt_x (3 * PI - 8.8)).
  pose proof (sin_gt_0 (3 * PI - 8.8)).
  lra.
Qed.

Lemma cos_12_04 : 0.84 < cos 12.04.
Proof.
  pose proof PI_upper as Hu. pose proof PI_lower as Hl.
  replace 12.04 with (- (4 * PI - 12.04) + 2 * INR 2 * PI) by (simpl; lra).
  rewrite cos_period, cos_neg.
  set (y := 4 * PI - 12.04).
  assert (Hy : -0.04 < y < 0.56) by (subst y; lra).
  destruct (pre_cos_bound y 0) as [H _]; try lra.
  unfold cos_approx, cos_term, sum_f_R0 in H. simpl in H.
  nra.
Qed.

Lemma sin_5_7 : sin 5.7 <= 0.
Proof.
  pose proof PI_upper as Hu. pose proof PI_lower as Hl.
  apply sin_le_0; lra.
Qed.

Lemma sin_10_56 : sin 10.56 <= 0.
Proof.
  pose proof PI_upper as Hu. pose proof PI_lower as Hl.
  replace 10.56 with (10.56 - 2 * PI + 2 * INR 1 * PI) by (simpl; lra).
  rewrite sin_period. apply sin_le_0; lra.
Qed.

Lemma Rnorm_v16_half :
  forall S : state, t S = 0 -> swirl S = 0 ->
  Rnorm (geoOf defaultControls) S 700 =
  0.55 + 0.30 * sin 5.7 + 0.15 * sin 8.8 + 0.10 * sin 10.56.
Proof.
  intros S Ht Hs.
  rewrite geoOf_default, Rnorm_angle_addition by lia.
  cbv zeta. rewrite half_sample.
  unfold a1, a2, a3, k1, k2, k3. rewrite Ht, Hs.
  rewrite !Rmult_0_l, sin_0, cos_0.
  repeat f_equal; lra.
Qed.

Lemma Rnorm_v11_half :
  V11.Rnorm 6 0 0 0.5 =
  0.55 + 0.30 * sin 5.7 + 0.15 * cos 12.04 + 0.10 * sin 10.56.
Proof.
  unfold V11.Rnorm, k1, k2, k3.
  rewrite !Rmult_0_l, sin_0, cos_0.
  repeat f_equal; lra.
Qed.

(** C1, as it is stated, fails: at complexity 6, 12 segments, [S.t = 0] and
    swirl phase 0, sample 700 of 1400 has parameter 0.5, and there the value
    of the v1.6 renderer is not the closed-form sum of v1.1, before and after
    the clamp to [[0.05, 0.98]]. *)
Lemma wedge_differs_from_closed_form :
  cell (Gt (geoOf defaultControls)) 700 = 0.5 /\
  Rnorm (geoOf defaultControls) initialState 700 <> V11.Rnorm 6 0 0 0.5 /\
  clamp (Rnorm (geoOf defaultControls) initialState 700) 0.05 0.98
    <> clamp (V11.Rnorm 6 0 0 0.5) 0.05 0.98.
Proof.
  pose proof sin_8_8 as H88. pose proof cos_12_04 as H12.
  pose proof sin_5_7 as H57. pose proof sin_10_56 as H10.
  pose proof (SIN_bound 5.7) as B57. pose proof (SIN_bound 10.56) as B10.
  pose proof (COS_bound 12.04) as B12.
  rewrite (Rnorm_v16_half initialState) by reflexivity.
  rewrite Rnorm_v11_half.
  split; [| split].
  - rewrite geoOf_default. unfold buildGeo. simpl Gt.
    rewrite cell_table by lia. apply half_sample.
  - lra.
  - rewrite !clamp_inside by lra. lra.
Qed.

(** C1, as the code has it.  At complexity 6, 12 segments, [S.t = 0] and
    swirl phase 0 the frame phases are [a1 = 0], [a2 = 0.20], [a3 = 0], and
    at the sample [t = 0.5] the angle-addition of v1.6 gives
    [0.55 + 0.30 sin(k1 t + a1) + 0.15 sin(k2 t + a2) + 0.10 sin(1.2 k3 t + a3)]:
    the closed-form sum of v1.1 with its second harmonic
    [0.15 cos(k2 (t + 0.20))] replaced by [0.15 sin(k2 t + 0.20)]. *)
Theorem wedge_harmonic_sum_at_half (S : state)
  (Ht : t S = 0) (Hs : swirl S = 0) :
  let G := geoOf defaultControls in
  cell (Gt G) 700 = 0.5 /\
  (a1 S = 0 /\ a2 S = 0.20 /\ a3 S = 0) /\
  Rnorm G S 700 =
    0.55 + 0.30 * sin (k1 6 * 0.5 + a1 S)
         + 0.15 * sin (k2 6 * 0.5 + a2 S)
         + 0.10 * sin (k3 6 * (0.5 * 1.2) + a3 S) /\
  Rnorm G S 700 =
    V11.Rnorm 6 (t S) (swirl S) 0.5
    - 0.15 * cos (k2 6 * (0.5 + 0.20)) + 0.15 * sin (k2 6 * 0.5 + 0.20).
Proof.
  intros G. subst G.
  assert (E1 : a1 S = 0)
    by (unfold a1; rewrite Ht, Hs, sin_0; lra).
  assert (E2 : a2 S = 0.20)
    by (unfold a2; rewrite Ht, Hs, Rmult_0_l, cos_0; lra).
  assert (E3 : a3 S = 0)
    by (unfold a3; rewrite Ht, Hs, Rmult_0_l, sin_0; lra).
  split; [| split; [| split]].
  - rewrite geoOf_default. unfold buildGeo. simpl Gt.
    rewrite cell_table by lia. apply half_sample.
  - auto.
  - rewrite geoOf_default, Rnorm_angle_addition by lia.
    cbv zeta. rewrite half_sample. reflexivity.
  - rewrite (Rnorm_v16_half S Ht Hs), Ht, Hs, Rnorm_v11_half.
    unfold k2. replace ((10 + 6 * 1.2) * (0.5 + 0.20)) with 12.04 by lra.
    replace ((10 + 6 * 1.2) * 0.5 + 0.20) with 8.8 by lra.
    lra.
Qed.

Lemma wedge_harmonic_sum_at_half_witness :
  let S := initialState in
  let G := geoOf defaultControls in
  cell (Gt G) 700 = 0.5 /\
  (a1 S = 0 /\ a2 S = 0.20 /\ a3 S = 0) /\
  Rnorm G S 700 =
    0.55 + 0.30 * sin (k1 6 * 0.5 + a1 S)
         + 0.15 * sin (k2 6 * 0.5 + a2 S)
         + 0.10 * sin (k3 6 * (0.5 * 1.2) + a3 S) /\
  Rnorm G S 700 =
    V11.Rnorm 6 (t S) (swirl S) 0.5
    - 0.15 * cos (k2 6 * (0.5 + 0.20)) + 0.15 * sin (k2 6 * 0.5 + 0.20).
Proof.
  apply (wedge_harmonic_sum_at_half initialState); reflexivity.
Defined.

(* ================================================================== *)
(** * Further properties of the colour utilities *)

Lemma hexRegExp_exec_groups (hex : string) (m1 m2 m3 : string) :
  hexRegExp_exec hex = Some (m1, m2, m3) ->
  exists c1 c2 c3 c4 c5 c6,
    m1 = String c1 (String c2 EmptyString) /\
    m2 = String c3 (String c4 EmptyString) /\
    m3 = String c5 (String c6 EmptyString) /\
    forallb isHexDigit [c1; c2; c3; c4; c5; c6] = true /\
    (hex = String c1 (String c2 (String c3 (String c4 (String c5 (String c6 EmptyString))))) \/
     hex = String "#" (String c1 (String c2 (String c3 (String c4 (String c5 (String c6 EmptyString))))))).
Proof.
  unfold hexRegExp_exec. intros E.
  pose proof (stripHash_spec hex) as Hbody. cbv zeta in Hbody.
  set (body := match hex with String "#"%char rest => rest | _ => hex end) in *.
  destruct body as [| c1 [| c2 [| c3 [| c4 [| c5 [| c6 [| c7 rest]]]]]]];
    try discriminate.
  destruct (forallb isHexDigit [c1; c2; c3; c4; c5; c6]) eqn:F; [| discriminate].
  injection E as <- <- <-.
  exists c1, c2, c3, c4, c5, c6.
  split; [reflexivity |]. split; [reflexivity |]. split; [reflexivity |].
  split; [exact F |].
  destruct Hbody as [E | [E _]]; [right | left]; congruence.
Qed.

(** X1. Whatever the string, every channel [hexToRgb] returns is an integer
    in [[0, 255]]. *)
Theorem hexToRgb_channels_are_bytes (hex : string) :
  isByte (r (hexToRgb hex)) /\ isByte (g (hexToRgb hex)) /\
  isByte (b (hexToRgb hex)).
Proof.
  unfold hexToRgb, isByte.
  destruct (hexRegExp_exec hex) as [[[m1 m2] m3] |] eqn:E; simpl.
  - destruct (hexRegExp_exec_groups hex m1 m2 m3 E)
      as (c1 & c2 & c3 & c4 & c5 & c6 & -> & -> & -> & F & _).
    rewrite forallb_forall in F.
    assert (H1 := F c1). assert (H2 := F c2). assert (H3 := F c3).
    assert (H4 := F c4). assert (H5 := F c5). assert (H6 := F c6).
    simpl in H1, H2, H3, H4, H5, H6.
    repeat split; eexists; (split; [| reflexivity]);
      apply parseInt16_pair; tauto.
  - repeat split; exists 255%Z; (split; [lia | reflexivity]).
Qed.

Lemma hexDigit_lower (c : ascii) : hexDigit (lowerAscii c) = hexDigit c.
Proof. destruct c as [[] [] [] [] [] [] [] []]; reflexivity. Qed.

Lemma lowerAscii_hash (c : ascii) :
  lowerAscii c = "#"%char <-> c = "#"%char.
Proof.
  destruct c as [[] [] [] [] [] [] [] []]; split; intros H;
    try reflexivity; try discriminate H.
Qed.

Lemma isHexDigit_lower (c : ascii) : isHexDigit (lowerAscii c) = isHexDigit c.
Proof. unfold isHexDigit. rewrite hexDigit_lower. reflexivity. Qed.

Lemma parseHexFrom_lower (str : string) :
  forall acc, parseHexFrom acc (lowerString str) = parseHexFrom acc str.
Proof.
  induction str as [| c rest IH]; intros acc; simpl; [reflexivity |].
  rewrite hexDigit_lower. destruct (hexDigit c); [apply IH | reflexivity].
Qed.

Lemma stripHash_cons (c : ascii) (rest : string) :
  stripHash (String c rest) = if Ascii.eqb c "#" then rest else String c rest.
Proof.
  destruct (Ascii.eqb_spec c "#"%char) as [-> | Hne]; [reflexivity |].
  destruct (stripHash_spec (String c rest)) as [E | [E _]]; [| exact E].
  exfalso. apply Hne. congruence.
Qed.

Lemma stripHash_lower (str : string) :
  stripHash (lowerString str) = lowerString (stripHash str).
Proof.
  destruct str as [| c rest]; [reflexivity |].
  change (lowerString (String c rest))
    with (String (lowerAscii c) (lowerString rest)).
  rewrite !stripHash_cons.
  destruct (Ascii.eqb_spec c "#"%char) as [-> | Hne].
  - reflexivity.
  - destruct (Ascii.eqb_spec (lowerAscii c) "#"%char) as [E | _];
      [| reflexivity].
    apply (proj1 (lowerAscii_hash c)) in E. contradiction.
Qed.

Lemma hexRegExp_exec_lower (str : string) :
  hexRegExp_exec (lowerString str) = option_map lower3 (hexRegExp_exec str).
Proof.
  change (hexRegExp_exec (lowerString str))
    with (hexRegExp_exec (String "#" (stripHash (lowerString str)))).
  change (hexRegExp_exec str)
    with (hexRegExp_exec (String "#" (stripHash str))).
  rewrite stripHash_lower.
  destruct (stripHash str)
    as [| c1 [| c2 [| c3 [| c4 [| c5 [| c6 [| c7 rest]]]]]]];
    try reflexivity.
  unfold hexRegExp_exec. simpl.
  rewrite !isHexDigit_lower.
  destruct (isHexDigit c1 && (isHexDigit c2 && (isHexDigit c3 &&
            (isHexDigit c4 && (isHexDigit c5 && (isHexDigit c6 && true))))));
    reflexivity.
Qed.

(** X2. [hexToRgb] reads upper-case and lower-case digits alike, and a
    leading ["#"] may be left out. *)
Theorem hexToRgb_case_and_hash :
  (forall str : string, hexToRgb (lowerString str) = hexToRgb str) /\
  (forall body : string,
      (forall rest, body <> String "#" rest) ->
      hexToRgb (String "#" body) = hexToRgb body).
Proof.
  split.
  - intros str. unfold hexToRgb. rewrite hexRegExp_exec_lower.
    destruct (hexRegExp_exec str) as [[[m1 m2] m3] |]; simpl; [| reflexivity].
    unfold parseInt16. rewrite !parseHexFrom_lower. reflexivity.
  - intros body Hno. unfold hexToRgb.
    change (hexRegExp_exec body)
      with (hexRegExp_exec (String "#" (stripHash body))).
    destruct (stripHash_spec body) as [E | [E _]].
    + exfalso. apply (Hno _ E).
    + unfold stripHash. rewrite E. reflexivity.
Qed.

Lemma clampZ_byte (x : Z) : (0 <= clampZ x 0 255 <= 255)%Z.
Proof. unfold clampZ. lia. Qed.

Lemma rgbToHex_digits (r g b : R) :
  exists c1 c2 c3 c4 c5 c6 : ascii,
    rgbToHex r g b =
    String "#" (String c1 (String c2 (String c3 (String c4 (String c5
      (String c6 EmptyString)))))) /\
    (isHexDigit c1 = true /\ isHexDigit c2 = true /\ isHexDigit c3 = true /\
     isHexDigit c4 = true /\ isHexDigit c5 = true /\ isHexDigit c6 = true).
Proof.
  unfold rgbToHex.
  destruct (to_byte _ (clampZ_byte (Js.Math_round r)))
    as (r1 & r2 & -> & Hr1 & Hr2 & _).
  destruct (to_byte _ (clampZ_byte (Js.Math_round g)))
    as (g1 & g2 & -> & Hg1 & Hg2 & _).
  destruct (to_byte _ (clampZ_byte (Js.Math_round b)))
    as (b1 & b2 & -> & Hb1 & Hb2 & _).
  exists r1, r2, b1, b2, g1, g2. split; [reflexivity | tauto].
Qed.

(** X3. For all numbers [r], [g], [b], in range or not, [rgbToHex] returns
    seven characters, ["#"] and six hexadecimal digits: a string that
    [hexToRgb] accepts. *)
Theorem rgbToHex_is_hex_colour (r g b : R) :
  String.length (rgbToHex r g b) = 7%nat /\
  hexColorString (rgbToHex r g b) /\
  hexRegExp_exec (rgbToHex r g b) <> None.
Proof.
  destruct (rgbToHex_digits r g b)
    as (c1 & c2 & c3 & c4 & c5 & c6 & E & F).
  rewrite E.
  assert (Hm : hexRegExp_exec
                 (String "#" (String c1 (String c2 (String c3 (String c4
                    (String c5 (String c6 EmptyString))))))) <> None).
  { rewrite hexRegExp_exec_six; [discriminate | tauto ..]. }
  split; [reflexivity |]. split; [| exact Hm].
  apply hexRegExp_exec_matches. exact Hm.
Qed.

(** *** RGB and HSL *)

Lemma quotient_unit (x d : R) :
  0 < d -> - d <= x <= d ->
  -1 <= x / d <= 1 /\ x / d * d = x /\
  (0 <= x -> 0 <= x / d) /\ (x < 0 -> x / d < 0).
Proof.
  intros Hd Hx.
  assert (Hi : 0 < / d) by (apply Rinv_0_lt_compat; exact Hd).
  assert (E : x / d * d = x) by (field; lra).
  unfold Rdiv in *. repeat split; try nra.
Qed.

(** Maximum and minimum of three channels, as [rgbToHsl] takes them. *)
Lemma max3_min3 (r g b : R) :
  let M := Rmax (Rmax r g) b in
  let m := Rmin (Rmin r g) b in
  (m <= r <= M) /\ (m <= g <= M) /\ (m <= b <= M) /\
  (M = r \/ M = g \/ M = b) /\ (m = r \/ m = g \/ m = b).
Proof.
  unfold Rmax, Rmin. destruct_Rle; repeat split; try lra; tauto.
Qed.

(** X4. For channels in [[0, 255]] the result of [rgbToHsl] has its hue in
    [[0, 1)] and its saturation and lightness in [[0, 1]]; a grey
    ([r = g = b]) has hue and saturation 0. *)
Theorem rgbToHsl_ranges (r g b : R)
  (Hr : channelOk r) (Hg : channelOk g) (Hb : channelOk b) :
  let x := rgbToHsl r g b in
  0 <= h x < 1 /\ 0 <= s x <= 1 /\ 0 <= l x <= 1 /\
  (r = g -> g = b -> h x = 0 /\ s x = 0 /\ l x = r / 255).
Proof.
  intros x.
  assert (Hs : 0 <= s x <= 1) by (apply rgbToHsl_s_range; assumption).
  split; [| split; [exact Hs | ]].
  - subst x. unfold channelOk in *. unfold rgbToHsl.
    set (r' := r / 255). set (g' := g / 255). set (b' := b / 255).
    destruct (max3_min3 r' g' b') as (Br & Bg & Bb & HM & Hm).
    set (M := Rmax (Rmax r' g') b') in *. set (m := Rmin (Rmin r' g') b') in *.
    clearbody M m. cbv zeta.
    destruct (Req_dec_T M m) as [E | Hne]; simpl; [lra |].
    assert (Hd : 0 < M - m) by lra.
    destruct (quotient_unit (g' - b') (M - m) Hd) as (Q1 & _ & Q1p & Q1n); [lra |].
    destruct (quotient_unit (b' - r') (M - m) Hd) as (Q2 & _); [lra |].
    destruct (quotient_unit (r' - g') (M - m) Hd) as (Q3 & _); [lra |].
    destruct (Req_dec_T M r'); [| destruct (Req_dec_T M g')].
    + destruct (Rlt_dec g' b') as [Hlt | Hge].
      * assert ((g' - b') / (M - m) < 0) by (apply Q1n; lra). lra.
      * assert (0 <= (g' - b') / (M - m)) by (apply Q1p; lra). lra.
    + lra.
    + lra.
  - subst x. unfold channelOk in *. unfold rgbToHsl.
    set (r' := r / 255). set (g' := g / 255). set (b' := b / 255).
    assert (Hr' : 0 <= r' <= 1) by (subst r'; lra).
    assert (Hg' : 0 <= g' <= 1) by (subst g'; lra).
    assert (Hb' : 0 <= b' <= 1) by (subst b'; lra).
    destruct (max3_min3 r' g' b') as (Br & Bg & Bb & HM & Hm).
    set (M := Rmax (Rmax r' g') b') in *. set (m := Rmin (Rmin r' g') b') in *.
    assert (HMm : 0 <= m /\ M <= 1) by (destruct HM as [-> | [-> | ->]];
      destruct Hm as [-> | [-> | ->]]; lra).
    split.
    + clearbody M m. cbv zeta.
      destruct (Req_dec_T M m); simpl; lra.
    + intros E1 E2.
      assert (EM : M = m) by (subst r' g' b'; rewrite E1, E2 in *; lra).
      assert (Em : m = r') by lra.
      clearbody M m. cbv zeta.
      destruct (Req_dec_T M m) as [_ | Hne]; [| contradiction].
      simpl. repeat split; try reflexivity. subst r'. lra.
Qed.

Lemma rgbToHsl_ranges_witness :
  let x := rgbToHsl 128 128 128 in
  0 <= h x < 1 /\ 0 <= s x <= 1 /\ 0 <= l x <= 1 /\
  (128 = 128 -> 128 = 128 -> h x = 0 /\ s x = 0 /\ l x = 128 / 255).
Proof.
  apply (rgbToHsl_ranges 128 128 128); unfold channelOk; lra.
Defined.

(** The [q] and [p] of [hslToRgb] at the lightness and saturation that
    [rgbToHsl] computes are the maximum and the minimum again. *)
Lemma hsl_q_is_max (M m : R) :
  0 <= m -> m < M -> M <= 1 ->
  let lum := (M + m) / 2 in
  let d := M - m in
  let sat := if Rlt_dec (1 / 2) lum then d / (2 - M - m) else d / (M + m) in
  sat <> 0 /\
  (if Rlt_dec lum (1 / 2) then lum * (1 + sat) else lum + sat - lum * sat) = M.
Proof.
  intros H0 Hlt H1 lum d sat. subst lum d sat.
  destruct (Rlt_dec (1 / 2) ((M + m) / 2)) as [Hhi | Hlo].
  - assert (Hden : 0 < 2 - M - m) by lra.
    destruct (Rlt_dec ((M + m) / 2) (1 / 2)) as [Habs | _]; [lra |].
    split.
    + intros E. apply (f_equal (fun z => z * (2 - M - m))) in E.
      unfold Rdiv in E. rewrite Rmult_assoc, Rinv_l in E by lra. lra.
    + field. lra.
  - assert (Hden : 0 < M + m) by lra.
    split.
    + intros E. apply (f_equal (fun z => z * (M + m))) in E.
      unfold Rdiv in E. rewrite Rmult_assoc, Rinv_l in E by lra. lra.
    + destruct (Rlt_dec ((M + m) / 2) (1 / 2)) as [Hlt' | Hge].
      * field. lra.
      * assert (EM : M + m = 1) by lra.
        replace ((M - m) / (M + m)) with (M - m) by (rewrite EM; field).
        nra.
Qed.

Ltac hue_cases :=
  unfold hue2rgb;
  repeat match goal with
         | |- context [Rlt_dec ?a ?b] =>
             no_test a; no_test b;
             destruct (Rlt_dec a b); [try (exfalso; lra) | try (exfalso; lra)]
         end;
  try nra.

(** The three channels out of the hue, when the maximum is red. *)
Lemma hue_max_red (r g b m : R) :
  m < r -> g <= r -> b <= r -> m <= g -> m <= b -> (m = g \/ m = b) ->
  let d := r - m in
  let hue := ((g - b) / d + (if Rlt_dec g b then 6 else 0)) / 6 in
  hue2rgb m r (hue + 1 / 3) = r /\
  hue2rgb m r hue = g /\
  hue2rgb m r (hue - 1 / 3) = b.
Proof.
  intros Hlt Hg Hb Hmg Hmb Hm d hue. subst hue d.
  destruct (quotient_unit (g - b) (r - m)) as (Q & E & Qp & Qn); [lra | lra |].
  set (u := (g - b) / (r - m)) in *. clearbody u.
  destruct (Rlt_dec g b) as [Hgb | Hgb].
  - assert (Hu : u < 0) by (apply Qn; lra).
    assert (Em : m = g) by (destruct Hm; lra). subst m.
    repeat split; hue_cases.
  - assert (Hu : 0 <= u) by (apply Qp; lra).
    assert (Em : m = b) by (destruct Hm; [nra | assumption]). subst m.
    repeat split; hue_cases.
Qed.

(** The same when the maximum is green. *)
Lemma hue_max_green (r g b m : R) :
  m < g -> r <= g -> b <= g -> m <= r -> m <= b -> (m = r \/ m = b) ->
  let d := g - m in
  let hue := ((b - r) / d + 2) / 6 in
  hue2rgb m g (hue + 1 / 3) = r /\
  hue2rgb m g hue = g /\
  hue2rgb m g (hue - 1 / 3) = b.
Proof.
  intros Hlt Hr Hb Hmr Hmb Hm d hue. subst hue d.
  destruct (quotient_unit (b - r) (g - m)) as (Q & E & Qp & Qn); [lra | lra |].
  set (u := (b - r) / (g - m)) in *. clearbody u.
  destruct (Rlt_dec b r) as [Hbr | Hbr].
  - assert (Hu : u < 0) by (apply Qn; lra).
    assert (Em : m = b) by (destruct Hm; lra). subst m.
    repeat split; hue_cases.
  - assert (Hu : 0 <= u) by (apply Qp; lra).
    assert (Em : m = r) by (destruct Hm; [assumption | nra]). subst m.
    repeat split; hue_cases.
Qed.

(** And when it is blue. *)
Lemma hue_max_blue (r g b m : R) :
  m < b -> r <= b -> g <= b -> m <= r -> m <= g -> (m = r \/ m = g) ->
  let d := b - m in
  let hue := ((r - g) / d + 4) / 6 in
  hue2rgb m b (hue + 1 / 3) = r /\
  hue2rgb m b hue = g /\
  hue2rgb m b (hue - 1 / 3) = b.
Proof.
  intros Hlt Hr Hg Hmr Hmg Hm d hue. subst hue d.
  destruct (quotient_unit (r - g) (b - m)) as (Q & E & Qp & Qn); [lra | lra |].
  set (u := (r - g) / (b - m)) in *. clearbody u.
  destruct (Rlt_dec r g) as [Hrg | Hrg].
  - assert (Hu : u < 0) by (apply Qn; lra).
    assert (Em : m = r) by (destruct Hm; lra). subst m.
    repeat split; hue_cases.
  - assert (Hu : 0 <= u) by (apply Qp; lra).
    assert (Em : m = g) by (destruct Hm; [nra | assumption]). subst m.
    repeat split; hue_cases.
Qed.

(** The way to HSL and back, channel by channel. *)
Lemma hsl_round_trip (r g b : R) :
  channelOk r -> channelOk g -> channelOk b ->
  hslToRgb (h (rgbToHsl r g b)) (s (rgbToHsl r g b)) (l (rgbToHsl r g b))
  = mkRgb r g b.
Proof.
  intros Hr Hg Hb. unfold channelOk in *. unfold rgbToHsl.
  set (r' := r / 255). set (g' := g / 255). set (b' := b / 255).
  assert (Er : r = r' * 255) by (subst r'; lra).
  assert (Eg : g = g' * 255) by (subst g'; lra).
  assert (Eb : b = b' * 255) by (subst b'; lra).
  assert (Hr' : 0 <= r' <= 1) by (subst r'; lra).
  assert (Hg' : 0 <= g' <= 1) by (subst g'; lra).
  assert (Hb' : 0 <= b' <= 1) by (subst b'; lra).
  rewrite Er, Eg, Eb. clearbody r' g' b'. clear Er Eg Eb Hr Hg Hb r g b.
  destruct (max3_min3 r' g' b') as (Br & Bg & Bb & HM & Hm).
  set (M := Rmax (Rmax r' g') b') in *. set (m := Rmin (Rmin r' g') b') in *.
  clearbody M m. cbv zeta.
  destruct (Req_dec_T M m) as [E | Hne].
  - simpl. unfold hslToRgb.
    destruct (Req_dec_T 0 0) as [_ | Habs]; [| contradiction Habs; reflexivity].
    f_equal; lra.
  - assert (Hlt : m < M) by lra.
    destruct (hsl_q_is_max M m) as [Hs Hq]; [lra | lra | lra |].
    cbv zeta in Hs, Hq. simpl. unfold hslToRgb.
    match goal with
    | |- context [Req_dec_T ?z 0] => destruct (Req_dec_T z 0) as [Hz | _]
    end; [contradiction |].
    cbv zeta. rewrite Hq.
    replace (2 * ((M + m) / 2) - M) with m by lra.
    destruct (Req_dec_T M r') as [EM | NM];
      [| destruct (Req_dec_T M g') as [EM | NM']].
    + subst M.
      destruct (hue_max_red r' g' b' m) as (H1 & H2 & H3); try lra.
      cbv zeta in H1, H2, H3. rewrite H1, H2, H3. reflexivity.
    + subst M.
      destruct (hue_max_green r' g' b' m) as (H1 & H2 & H3); try lra.
      cbv zeta in H1, H2, H3. rewrite H1, H2, H3. reflexivity.
    + assert (EM : M = b') by (destruct HM as [HM | [HM | HM]]; congruence).
      subst M.
      destruct (hue_max_blue r' g' b' m) as (H1 & H2 & H3); try lra.
      cbv zeta in H1, H2, H3. rewrite H1, H2, H3. reflexivity.
Qed.

(** X5. In exact arithmetic [hslToRgb] undoes [rgbToHsl]: for channels in
    [[0, 255]], converting to HSL and back returns the three channels. *)
Theorem hslToRgb_rgbToHsl (r g b : R)
  (Hr : channelOk r) (Hg : channelOk g) (Hb : channelOk b) :
  let x := rgbToHsl r g b in
  hslToRgb (h x) (s x) (l x) = mkRgb r g b.
Proof.
  intros x. subst x.
  apply hsl_round_trip; assumption.
Qed.

Lemma hslToRgb_rgbToHsl_witness :
  let x := rgbToHsl 255 0 85 in
  hslToRgb (h x) (s x) (l x) = mkRgb 255 0 85.
Proof.
  apply (hslToRgb_rgbToHsl 255 0 85); unfold channelOk; lra.
Defined.

(** *** Saturated colours under the boost *)

(** The saturation that [rgbToHsl] computes does not depend on the order
    of the green and the blue channel. *)
Lemma rgbToHsl_s_swap (r g b : R) :
  s (rgbToHsl r b g) = s (rgbToHsl r g b).
Proof.
  unfold rgbToHsl.
  replace (Rmax (Rmax (r / 255) (b / 255)) (g / 255))
    with (Rmax (Rmax (r / 255) (g / 255)) (b / 255))
    by (unfold Rmax; destruct_Rle; lra).
  replace (Rmin (Rmin (r / 255) (b / 255)) (g / 255))
    with (Rmin (Rmin (r / 255) (g / 255)) (b / 255))
    by (unfold Rmin; destruct_Rle; lra).
  cbv zeta.
  destruct (Req_dec_T (Rmax (Rmax (r / 255) (g / 255)) (b / 255))
                      (Rmin (Rmin (r / 255) (g / 255)) (b / 255)));
    reflexivity.
Qed.

(** The channels that [hexToRgb] returns, as integers. *)
Lemma hexToRgb_integral (hex : string) :
  exists zr zg zb : Z,
    (0 <= zr <= 255)%Z /\ (0 <= zg <= 255)%Z /\ (0 <= zb <= 255)%Z /\
    hexToRgb hex = mkRgb (IZR zr) (IZR zg) (IZR zb).
Proof.
  unfold hexToRgb.
  destruct (hexRegExp_exec hex) as [[[m1 m2] m3] |] eqn:E.
  - destruct (hexRegExp_exec_groups hex m1 m2 m3 E)
      as (c1 & c2 & c3 & c4 & c5 & c6 & -> & -> & -> & F & _).
    rewrite forallb_forall in F.
    assert (H1 := F c1). assert (H2 := F c2). assert (H3 := F c3).
    assert (H4 := F c4). assert (H5 := F c5). assert (H6 := F c6).
    simpl in H1, H2, H3, H4, H5, H6.
    eexists _, _, _. repeat split; try reflexivity;
      apply parseInt16_pair; tauto.
  - exists 255%Z, 255%Z, 255%Z. repeat split; lia.
Qed.

(** With a boost factor of at least 1 a fully saturated colour goes
    through [rgbToHsl] and [hslToRgb] unchanged: [boostSaturation] writes
    the channels it has read, and what it writes is fully saturated
    again. *)
Lemma boostSaturation_saturated (hex : string) (boost : R) :
  satOf hex = 1 -> 1 <= boost ->
  boostSaturation hex boost =
    rgbToHex (r (hexToRgb hex)) (g (hexToRgb hex)) (b (hexToRgb hex)) /\
  hexToRgb (boostSaturation hex boost) =
    mkRgb (r (hexToRgb hex)) (b (hexToRgb hex)) (g (hexToRgb hex)) /\
  satOf (boostSaturation hex boost) = 1.
Proof.
  intros Hsat Hboost.
  assert (Hout : boostSaturation hex boost =
                 rgbToHex (r (hexToRgb hex)) (g (hexToRgb hex)) (b (hexToRgb hex))).
  { unfold satOf in Hsat. cbv zeta in Hsat.
    unfold boostSaturation. cbv zeta. rewrite Hsat.
    rewrite boostedS_saturated by exact Hboost.
    destruct (hexToRgb_range hex) as (Hr & Hg & Hb). cbv zeta in Hr, Hg, Hb.
    pose proof (hsl_round_trip _ _ _ Hr Hg Hb) as RT.
    rewrite Hsat in RT. rewrite RT. reflexivity. }
  destruct (hexToRgb_integral hex) as (zr & zg & zb & Rr & Rg & Rb & E).
  assert (Hback : hexToRgb (boostSaturation hex boost) =
                  mkRgb (r (hexToRgb hex)) (b (hexToRgb hex)) (g (hexToRgb hex))).
  { rewrite Hout, E. simpl r. simpl g. simpl b.
    apply hexToRgb_rgbToHex; assumption. }
  split; [exact Hout |]. split; [exact Hback |].
  unfold satOf in *. cbv zeta in *. rewrite Hback. simpl r. simpl g. simpl b.
  rewrite rgbToHsl_s_swap. exact Hsat.
Qed.

(** C9. For a colour whose HSL saturation is 1 and a boost factor in
    [[1.0, 2.2]], the clamp leaves the boosted saturation at 1;
    [boostSaturation] then writes the channels it has read, with
    [rgbToHex], so the colour it returns has the channels of the input
    with green and blue exchanged and an HSL saturation of exactly 1,
    hence of at most 1, also after any number of repeated applications. *)
Theorem boost_keeps_saturation_bounded (hex : string) (boost : R)
  (Hsat : satOf hex = 1) (Hboost : 1 <= boost <= 2.2) :
  let c := hexToRgb hex in
  boostedS (satOf hex) boost = 1 /\
  boostSaturation hex boost = rgbToHex (r c) (g c) (b c) /\
  hexToRgb (boostSaturation hex boost) = mkRgb (r c) (b c) (g c) /\
  satOf (boostSaturation hex boost) = 1 /\
  forall n : nat,
    satOf (Nat.iter n (fun x => boostSaturation x boost) hex) = 1.
Proof.
  intros c. subst c.
  assert (Hb : 1 <= boost) by lra.
  destruct (boostSaturation_saturated hex boost Hsat Hb) as (Hout & Hback & Hs).
  split; [rewrite Hsat; apply boostedS_saturated; exact Hb |].
  split; [exact Hout |]. split; [exact Hback |]. split; [exact Hs |].
  assert (Hiter : forall n : nat,
             satOf (Nat.iter n (fun x => boostSaturation x boost) hex) = 1).
  { induction n as [| n IH]; [exact Hsat |].
    simpl. apply (boostSaturation_saturated _ boost IH Hb). }
  exact Hiter.
Qed.

Lemma boost_keeps_saturation_bounded_witness :
  let c := hexToRgb "#ff0000" in
  boostedS (satOf "#ff0000") 1.7 = 1 /\
  boostSaturation "#ff0000" 1.7 = rgbToHex (r c) (g c) (b c) /\
  hexToRgb (boostSaturation "#ff0000" 1.7) = mkRgb (r c) (b c) (g c) /\
  satOf (boostSaturation "#ff0000" 1.7) = 1 /\
  forall n : nat,
    satOf (Nat.iter n (fun x => boostSaturation x 1.7) "#ff0000"%string) = 1.
Proof.
  apply (boost_keeps_saturation_bounded "#ff0000" 1.7);
    [exact satOf_red | lra].
Defined.

Lemma hue2rgb_between (p q t : R) :
  p <= q -> -1 / 3 <= t <= 4 / 3 -> p <= hue2rgb p q t <= q.
Proof.
  intros Hpq Ht. unfold hue2rgb.
  repeat match goal with
         | |- context [Rlt_dec ?a ?b] =>
             no_test a; no_test b;
             destruct (Rlt_dec a b); [try (exfalso; lra) | try (exfalso; lra)]
         end;
    split; nra.
Qed.

(** X6. For a hue, a saturation and a lightness in [[0, 1]], every channel
    that [hslToRgb] returns lies in [[0, 255]]; with saturation 0 the three
    channels are equal. *)
Theorem hslToRgb_range (hue sat lum : R)
  (Hh : 0 <= hue <= 1) (Hs : 0 <= sat <= 1) (Hl : 0 <= lum <= 1) :
  let c := hslToRgb hue sat lum in
  channelOk (r c) /\ channelOk (g c) /\ channelOk (b c) /\
  (sat = 0 -> r c = lum * 255 /\ g c = lum * 255 /\ b c = lum * 255).
Proof.
  unfold hslToRgb, channelOk.
  destruct (Req_dec_T sat 0) as [E | Hne]; simpl.
  - repeat split; lra.
  - set (q := if Rlt_dec lum (1 / 2) then lum * (1 + sat)
              else lum + sat - lum * sat).
    assert (Hq : lum <= q <= 1).
    { subst q. destruct (Rlt_dec lum (1 / 2)); split; nra. }
    assert (Hp : 0 <= 2 * lum - q <= q).
    { subst q. destruct (Rlt_dec lum (1 / 2)); split; nra. }
    clearbody q.
    destruct (hue2rgb_between (2 * lum - q) q (hue + 1 / 3)); [lra | lra |].
    destruct (hue2rgb_between (2 * lum - q) q hue); [lra | lra |].
    destruct (hue2rgb_between (2 * lum - q) q (hue - 1 / 3)); [lra | lra |].
    repeat split; try lra. all: intros; lra.
Qed.

Lemma hslToRgb_range_witness :
  let c := hslToRgb 0 0 (1 / 2) in
  channelOk (r c) /\ channelOk (g c) /\ channelOk (b c) /\
  (0 = 0 -> r c = 1 / 2 * 255 /\ g c = 1 / 2 * 255 /\ b c = 1 / 2 * 255).
Proof.
  apply (hslToRgb_range 0 0 (1 / 2)); lra.
Defined.

(** *** Saturation boost and the palette *)

(** X7. For a saturation in [[0, 1]] and a boost factor of at least 1 the
    boosted saturation is never below the old one and never above 1, and
    it is 0 only for saturation 0. *)
Theorem boostedS_never_lowers (sat boost : R)
  (Hs : 0 <= sat <= 1) (Hb : 1 <= boost) :
  sat <= boostedS sat boost <= 1 /\
  (boostedS sat boost = 0 <-> sat = 0).
Proof.
  unfold boostedS, clamp.
  set (x := sat * (1 + 1 / 2 * (1 - sat)) * boost).
  assert (Hf : sat <= sat * (1 + 1 / 2 * (1 - sat))) by nra.
  assert (Hx : sat <= x).
  { subst x. set (y := sat * (1 + 1 / 2 * (1 - sat))) in *. clearbody y. nra. }
  assert (Hx0 : sat = 0 -> x = 0) by (intros ->; subst x; lra).
  clearbody x. unfold Rmin, Rmax. destruct_Rle; repeat split; try lra.
  all: intros; try lra.
Qed.

Lemma boostedS_never_lowers_witness :
  0.5 <= boostedS 0.5 1.7 <= 1 /\ (boostedS 0.5 1.7 = 0 <-> 0.5 = 0).
Proof.
  apply (boostedS_never_lowers 0.5 1.7); lra.
Defined.

Lemma rgbToHsl_grey (v : R) :
  rgbToHsl v v v = mkHsl 0 0 (v / 255).
Proof.
  unfold rgbToHsl.
  replace (Rmax (Rmax (v / 255) (v / 255)) (v / 255)) with (v / 255)
    by (unfold Rmax; destruct_Rle; lra).
  replace (Rmin (Rmin (v / 255) (v / 255)) (v / 255)) with (v / 255)
    by (unfold Rmin; destruct_Rle; lra).
  cbv zeta.
  destruct (Req_dec_T (v / 255) (v / 255)) as [_ | Hne];
    [| contradiction Hne; reflexivity].
  f_equal. lra.
Qed.

(** X8. A grey is a fixed point of [boostSaturation], whatever the boost
    factor: a string read as the grey of level [v] comes back as ["#"]
    followed by the two digits of [v] three times. *)
Theorem boostSaturation_grey (hex : string) (boost : R) (v : Z)
  (Hv : (0 <= v <= 255)%Z)
  (Hgrey : hexToRgb hex = mkRgb (IZR v) (IZR v) (IZR v)) :
  boostSaturation hex boost = ("#" ++ to v ++ to v ++ to v)%string.
Proof.
  unfold boostSaturation. rewrite Hgrey. simpl r. simpl g. simpl b.
  rewrite rgbToHsl_grey. simpl h. simpl s. simpl l.
  rewrite boostedS_zero. unfold hslToRgb.
  destruct (Req_dec_T 0 0) as [_ | Hne]; [| contradiction Hne; reflexivity].
  simpl r. simpl g. simpl b.
  replace (IZR v / 255 * 255) with (IZR v) by lra.
  unfold rgbToHex. rewrite Math_round_IZR, clampZ_inside by lia.
  reflexivity.
Qed.

Lemma boostSaturation_grey_witness :
  boostSaturation "#808080" 1.7 = ("#" ++ to 128 ++ to 128 ++ to 128)%string.
Proof.
  apply (boostSaturation_grey "#808080" 1.7 128); [lia | reflexivity].
Defined.

Lemma boostSaturation_is_hex_colour (hex : string) (boost : R) :
  hexColorString (boostSaturation hex boost).
Proof.
  unfold boostSaturation. cbv zeta.
  match goal with
  | |- hexColorString (rgbToHex ?x ?y ?z) =>
      destruct (rgbToHex_digits x y z)
        as (c1 & c2 & c3 & c4 & c5 & c6 & E & F)
  end.
  rewrite E. apply hexRegExp_exec_matches.
  rewrite hexRegExp_exec_six; [discriminate | tauto ..].
Qed.

(** X9. The palette has as many entries as the colour list and the same
    first entry; every later entry is a well-formed colour string, even
    where the entry of the colour list is not. *)
Theorem paletteOf_entries (colors : list string) (satBoost : R) :
  List.length (paletteOf colors satBoost) = List.length colors /\
  nth_error (paletteOf colors satBoost) 0 = nth_error colors 0 /\
  forall (i : nat) (c : string),
    nth_error (paletteOf colors satBoost) (S i) = Some c ->
    hexColorString c /\
    exists c0, nth_error colors (S i) = Some c0 /\
               c = boostSaturation c0 satBoost.
Proof.
  destruct colors as [| c0 rest]; simpl.
  - repeat split; try reflexivity; destruct i; discriminate.
  - rewrite length_map. repeat split; try reflexivity.
    + rewrite nth_error_map in H.
      destruct (nth_error rest i); [| discriminate].
      injection H as <-. apply boostSaturation_is_hex_colour.
    + rewrite nth_error_map in H.
      destruct (nth_error rest i) as [c1 |]; [| discriminate].
      injection H as <-. exists c1. split; reflexivity.
Qed.

(* ================================================================== *)
(** * Further properties of the control mappers *)

Lemma Math_pow_unit (x y : R) :
  0 <= x <= 1 -> 0 < y -> 0 <= Js.Math_pow x y <= 1.
Proof.
  intros Hx Hy. unfold Js.Math_pow.
  destruct (Rlt_dec 0 x) as [Hpos | _]; [| lra].
  unfold Rpower. split; [left; apply exp_pos |].
  rewrite <- exp_0.
  destruct (Req_dec x 1) as [-> | Hne].
  - rewrite ln_1, Rmult_0_r. lra.
  - left. apply exp_increasing.
    assert (ln x < 0) by (rewrite <- ln_1; apply ln_increasing; lra).
    nra.
Qed.

Lemma Math_pow_monotone (x1 x2 y : R) :
  0 <= x1 <= x2 -> 0 < y -> Js.Math_pow x1 y <= Js.Math_pow x2 y.
Proof.
  intros Hx Hy. unfold Js.Math_pow.
  destruct (Rlt_dec 0 x1) as [H1 | H1]; destruct (Rlt_dec 0 x2) as [H2 | H2];
    try lra.
  - apply Rle_Rpower_l; lra.
  - left. apply exp_pos.
Qed.

Lemma clamp_monotone (x y a b : R) :
  x <= y -> clamp x a b <= clamp y a b.
Proof.
  intros H. unfold clamp, Rmin, Rmax. destruct_Rle; lra.
Qed.

Lemma clamp_below (x a b : R) : a <= b -> x <= a -> clamp x a b = a.
Proof.
  intros Hab H. unfold clamp, Rmin, Rmax. destruct_Rle; lra.
Qed.

Lemma clamp_above (x a b : R) : a <= b -> b <= x -> clamp x a b = b.
Proof.
  intros Hab H. unfold clamp, Rmin, Rmax. destruct_Rle; lra.
Qed.

Lemma sensShape_bounds (x : R) : 0.22 <= sensShape x <= 0.72.
Proof.
  unfold sensShape.
  destruct (Math_pow_unit (clamp x 0 1) 1.15); [apply clamp_bounds; lra | lra |].
  lra.
Qed.

(** X10. [sensShape] maps every number into [[0.22, 0.72]], never decreases,
    and is 0.22 for inputs up to 0 and 0.72 for inputs from 1 on. *)
Theorem sensShape_range :
  (forall x : R, 0.22 <= sensShape x <= 0.72) /\
  (forall x y : R, x <= y -> sensShape x <= sensShape y) /\
  (forall x : R, x <= 0 -> sensShape x = 0.22) /\
  (forall x : R, 1 <= x -> sensShape x = 0.72).
Proof.
  split; [exact sensShape_bounds |]. split; [| split].
  - intros x y Hxy. unfold sensShape.
    assert (Js.Math_pow (clamp x 0 1) 1.15 <= Js.Math_pow (clamp y 0 1) 1.15).
    { apply Math_pow_monotone; [| lra].
      split; [apply clamp_bounds; lra | apply clamp_monotone; exact Hxy]. }
    lra.
  - intros x Hx. unfold sensShape. rewrite clamp_below by lra.
    unfold Js.Math_pow. destruct (Rlt_dec 0 0); lra.
  - intros x Hx. unfold sensShape. rewrite clamp_above by lra.
    rewrite Math_pow_pos, Rpower_one by lra. lra.
Qed.

Section SliderGainShape.

Variable k : R.
Hypothesis Hk : 0 < k.

Lemma sliderGain_monotone (x y : R) :
  x <= y -> sliderGain x k <= sliderGain y k.
Proof.
  intros Hxy. pose proof (exp_neg_lt_1 k Hk) as Hd.
  pose proof (clamp_monotone x y 0 1 Hxy) as Hc.
  unfold sliderGain.
  assert (He : exp (- k * clamp y 0 1) <= exp (- k * clamp x 0 1)).
  { destruct (Req_dec (clamp x 0 1) (clamp y 0 1)) as [-> | Hne]; [lra |].
    left. apply exp_increasing. nra. }
  apply Rmult_le_compat_r; [left; apply Rinv_0_lt_compat; lra | lra].
Qed.

Lemma sliderGain_strict (x y : R) :
  0 <= x -> x < y -> y <= 1 -> sliderGain x k < sliderGain y k.
Proof.
  intros Hx Hxy Hy. pose proof (exp_neg_lt_1 k Hk) as Hd.
  unfold sliderGain. rewrite !clamp_inside by lra.
  assert (He : exp (- k * y) < exp (- k * x)) by (apply exp_increasing; nra).
  apply Rmult_lt_compat_r; [apply Rinv_0_lt_compat; lra | lra].
Qed.


End SliderGainShape.


(* ================================================================== *)
(** * Further properties of the animation integrator *)

Lemma defaultK_pos : 0 < defaultK.
Proof. unfold defaultK. lra. Qed.

Lemma sliderGain_positive (x : R) : 0 < x -> 0 < sliderGain x defaultK.
Proof.
  intros Hx. pose proof defaultK_pos as Hk.
  rewrite <- (sliderGain_at_0 defaultK Hk).
  apply Rlt_le_trans with (sliderGain (Rmin x 1) defaultK).
  - apply sliderGain_strict; unfold Rmin; destruct_Rle; lra.
  - apply sliderGain_monotone; [exact Hk |].
    unfold Rmin. destruct_Rle; lra.
Qed.

Lemma Math_sign_cases (x : R) :
  (0 < x /\ Js.Math_sign x = 1) \/ (x < 0 /\ Js.Math_sign x = -1) \/
  (x = 0 /\ Js.Math_sign x = 0).
Proof.
  unfold Js.Math_sign.
  destruct (Rlt_dec 0 x); [| destruct (Rlt_dec x 0)]; [left | right; left | right; right];
    split; lra.
Qed.

Lemma targets_bounds (c : controls) :
  0 <= tgtPatOf c <= 1.296 /\ -0.288 <= tgtRotOf c <= 0.288 /\
  0 <= tgtSwlOf c <= 1.152.
Proof.
  pose proof defaultK_pos as Hk.
  pose proof (sensShape_bounds (sensitivityUI c)) as Hs.
  pose proof (sliderGain_range defaultK Hk (patternUI c)) as Hp.
  pose proof (sliderGain_range defaultK Hk (Js.Math_abs (rotationUI c))) as Hr.
  pose proof (sliderGain_range defaultK Hk (swirlUI c)) as Hw.
  unfold tgtPatOf, tgtRotOf, tgtSwlOf, capPat, capRot, capSwl.
  set (sens := sensShape (sensitivityUI c)) in *.
  set (gp := sliderGain (patternUI c) defaultK) in *.
  set (gr := sliderGain (Js.Math_abs (rotationUI c)) defaultK) in *.
  set (gw := sliderGain (swirlUI c) defaultK) in *.
  clearbody sens gp gr gw.
  assert (0 <= sens * gp <= 0.72) by nra.
  assert (0 <= sens * gr <= 0.72) by nra.
  assert (0 <= sens * gw <= 0.72) by nra.
  destruct (Math_sign_cases (rotationUI c)) as [[_ ->] | [[_ ->] | [_ ->]]];
    repeat split; nra.
Qed.

(** X12. The rotation target of the integrator is at most 0.288 in
    magnitude, has the sign of the rotation slider (0 at 0), and changes
    sign with it. *)
Theorem tgtRotOf_sign_and_bound (c : controls) :
  Rabs (tgtRotOf c) <= 0.288 /\
  (0 < rotationUI c -> 0 < tgtRotOf c) /\
  (rotationUI c < 0 -> tgtRotOf c < 0) /\
  (rotationUI c = 0 -> tgtRotOf c = 0) /\
  (forall c' : controls,
      sensitivityUI c' = sensitivityUI c ->
      rotationUI c' = - rotationUI c ->
      tgtRotOf c' = - tgtRotOf c).
Proof.
  pose proof (sensShape_bounds (sensitivityUI c)) as Hs.
  destruct (targets_bounds c) as (_ & Hr & _).
  split; [apply Rabs_le; lra |].
  assert (Hg : rotationUI c <> 0 ->
               0 < sliderGain (Js.Math_abs (rotationUI c)) defaultK).
  { intros Hne. apply sliderGain_positive. unfold Js.Math_abs.
    apply Rabs_pos_lt. exact Hne. }
  unfold tgtRotOf, capRot in *.
  split; [| split; [| split]].
  - intros Hpos. destruct (Math_sign_cases (rotationUI c))
      as [[_ ->] | [[? _] | [? _]]]; try lra.
    assert (0 < sliderGain (Js.Math_abs (rotationUI c)) defaultK)
      by (apply Hg; lra).
    nra.
  - intros Hneg. destruct (Math_sign_cases (rotationUI c))
      as [[? _] | [[_ ->] | [? _]]]; try lra.
    assert (0 < sliderGain (Js.Math_abs (rotationUI c)) defaultK)
      by (apply Hg; lra).
    nra.
  - intros H0. destruct (Math_sign_cases (rotationUI c))
      as [[? _] | [[? _] | [_ ->]]]; try lra.
  - intros c' Es Er. rewrite Es, Er. unfold Js.Math_abs. rewrite Rabs_Ropp.
    destruct (Math_sign_cases (rotationUI c)) as [[H ->] | [[H ->] | [H ->]]];
      destruct (Math_sign_cases (- rotationUI c))
        as [[H' ->] | [[H' ->] | [H' ->]]]; try lra.
Qed.

(** *** The time step *)

Lemma dtOf_range (w : world) (now : R) : 0 <= dtOf w now <= 0.050.
Proof.
  unfold dtOf, dtRawOf, Rmin, Rmax. destruct_Rle; lra.
Qed.

Lemma smoothing_range (dt : R) : 0 <= dt -> 0 <= smoothing dt < 1.
Proof.
  intros Hdt. unfold smoothing.
  pose proof (exp_pos (- dt / 0.18)) as Hp.
  assert (exp (- dt / 0.18) <= 1).
  { rewrite <- exp_0. destruct (Req_dec dt 0) as [-> | Hne].
    - replace (- 0 / 0.18) with 0 by lra. lra.
    - left. apply exp_increasing. lra. }
  lra.
Qed.

(** X13. The time step of a frame is always within [[0, 0.05]] seconds: 0
    when the clock has not advanced (or has gone back), 0.05 after a gap of
    50 ms or more, and the elapsed seconds in between; the smoothing
    factor of the frame lies in [[0, 1)]. *)
Theorem dt_is_clamped (w : world) (now : R) :
  0 <= dtOf w now <= 0.050 /\
  (now <= last w -> dtOf w now = 0) /\
  (last w + 50 <= now -> dtOf w now = 0.050) /\
  (last w <= now <= last w + 50 -> dtOf w now = (now - last w) / 1000) /\
  0 <= smoothing (dtOf w now) < 1.
Proof.
  split; [apply dtOf_range |].
  split; [| split; [| split]].
  - intros H. unfold dtOf, dtRawOf, Rmin, Rmax. destruct_Rle; lra.
  - intros H. unfold dtOf, dtRawOf, Rmin, Rmax. destruct_Rle; lra.
  - intros H. unfold dtOf, dtRawOf, Rmin, Rmax. destruct_Rle; lra.
  - apply smoothing_range, dtOf_range.
Qed.

(** *** Velocities, phases and the frame-rate estimate *)

Lemma pursue_fields (c : controls) (dt : R) (S : state) :
  let a := smoothing dt in
  patV (pursue c dt S) = patV S + (tgtPatOf c - patV S) * a /\
  rotV (pursue c dt S) = rotV S + (tgtRotOf c - rotV S) * a /\
  swlV (pursue c dt S) = swlV S + (tgtSwlOf c - swlV S) * a /\
  t (pursue c dt S) = t S + dt * patV (pursue c dt S) /\
  rot (pursue c dt S) = rot S + dt * rotV (pursue c dt S) /\
  swirl (pursue c dt S) = swirl S + dt * swlV (pursue c dt S).
Proof. repeat split; reflexivity. Qed.

(** A step towards a target ends between the old value and the target. *)
Lemma smooth_between (v tgt a : R) :
  0 <= a < 1 ->
  Rmin v tgt <= v + (tgt - v) * a <= Rmax v tgt.
Proof.
  intros Ha. unfold Rmin, Rmax. destruct_Rle; nra.
Qed.

Lemma smooth_in_interval (v tgt a lo hi : R) :
  0 <= a < 1 -> lo <= v <= hi -> lo <= tgt <= hi ->
  lo <= v + (tgt - v) * a <= hi.
Proof.
  intros Ha Hv Ht. pose proof (smooth_between v tgt a Ha) as H.
  unfold Rmin, Rmax in H. destruct (Rle_dec v tgt); lra.
Qed.

Lemma pursue_velocitiesOk (c : controls) (dt : R) (S : state) :
  0 <= dt -> velocitiesOk S -> velocitiesOk (pursue c dt S).
Proof.
  intros Hdt (Hp & Hr & Hs).
  destruct (pursue_fields c dt S) as (Ep & Er & Es & _).
  cbv zeta in Ep, Er, Es.
  destruct (targets_bounds c) as (Tp & Tr & Ts).
  pose proof (smoothing_range dt Hdt) as Ha.
  unfold velocitiesOk. rewrite Ep, Er, Es.
  split; [| split]; apply smooth_in_interval; assumption.
Qed.

Lemma loop_velocities (w : world) (now elapsed : R) :
  let S' := anim (loop w now elapsed) in
  let P := pursue (ctl w) (dtOf w now) (anim w) in
  if run (ctl w)
  then patV S' = patV P /\ rotV S' = rotV P /\ swlV S' = swlV P /\
       t S' = resetBig (t P) /\ swirl S' = resetBig (swirl P)
  else patV S' = patV (anim w) /\ rotV S' = rotV (anim w) /\
       swlV S' = swlV (anim w) /\ t S' = t (anim w) /\
       swirl S' = swirl (anim w).
Proof.
  unfold loop. destruct (run (ctl w)); repeat split; reflexivity.
Qed.

Lemma loop_velocitiesOk (w : world) (now elapsed : R) :
  velocitiesOk (anim w) -> velocitiesOk (anim (loop w now elapsed)).
Proof.
  intros H. pose proof (loop_velocities w now elapsed) as L. cbv zeta in L.
  destruct (run (ctl w)).
  - destruct L as (Ep & Er & Es & _).
    pose proof (pursue_velocitiesOk (ctl w) (dtOf w now) (anim w)
                  (proj1 (dtOf_range w now)) H) as HP.
    unfold velocitiesOk in *. rewrite Ep, Er, Es. exact HP.
  - destruct L as (Ep & Er & Es & _).
    unfold velocitiesOk in *. rewrite Ep, Er, Es. exact H.
Qed.

Lemma step_velocitiesOk (w : world) (e : event) :
  velocitiesOk (anim w) -> velocitiesOk (anim (step w e)).
Proof.
  destruct e as [now elapsed | c now]; [apply loop_velocitiesOk | auto].
Qed.

Lemma steps_velocitiesOk (es : list event) :
  forall w, velocitiesOk (anim w) -> velocitiesOk (anim (steps w es)).
Proof.
  unfold steps. induction es as [| e es IH]; intros w H; simpl; [exact H |].
  apply IH, step_velocitiesOk, H.
Qed.

Lemma initial_velocitiesOk : velocitiesOk initialState.
Proof. unfold velocitiesOk. simpl. lra. Qed.

(** X14. From the initial state, whatever the frames and the control
    settings, the smoothed velocities stay within the speed caps times
    0.72: [patV] in [[0, 1.296]], [rotV] in [[-0.288, 0.288]], [swlV] in
    [[0, 1.152]]; and in a running frame each velocity ends between its old
    value and its target. *)
Theorem velocities_stay_within_caps :
  (forall (c : controls) (now0 : R) (es : list event),
      velocitiesOk (anim (steps (initialWorld c now0) es))) /\
  (forall (w : world) (now elapsed : R),
      run (ctl w) = true ->
      let S := anim w in
      let S' := anim (loop w now elapsed) in
      Rmin (patV S) (tgtPatOf (ctl w)) <= patV S'
        <= Rmax (patV S) (tgtPatOf (ctl w)) /\
      Rmin (rotV S) (tgtRotOf (ctl w)) <= rotV S'
        <= Rmax (rotV S) (tgtRotOf (ctl w)) /\
      Rmin (swlV S) (tgtSwlOf (ctl w)) <= swlV S'
        <= Rmax (swlV S) (tgtSwlOf (ctl w))).
Proof.
  split.
  - intros c now0 es. apply steps_velocitiesOk. exact initial_velocitiesOk.
  - intros w now elapsed Hrun S S'. subst S S'.
    pose proof (loop_velocities w now elapsed) as L. cbv zeta in L.
    rewrite Hrun in L. destruct L as (Ep & Er & Es & _).
    destruct (pursue_fields (ctl w) (dtOf w now) (anim w)) as (Fp & Fr & Fs & _).
    cbv zeta in Fp, Fr, Fs.
    pose proof (smoothing_range _ (proj1 (dtOf_range w now))) as Ha.
    rewrite Ep, Er, Es, Fp, Fr, Fs.
    split; [| split]; apply smooth_between; exact Ha.
Qed.

Lemma loop_phasesOk (w : world) (now elapsed : R) :
  velocitiesOk (anim w) -> phasesOk (anim w) ->
  let S := anim w in
  let S' := anim (loop w now elapsed) in
  phasesOk S' /\
  (t S <= t S' \/ t S' = 0) /\ (swirl S <= swirl S' \/ swirl S' = 0).
Proof.
  intros HV (Ht & Hs). cbv zeta.
  pose proof (loop_velocities w now elapsed) as L. cbv zeta in L.
  destruct (run (ctl w)).
  - destruct L as (_ & _ & _ & Et & Es).
    destruct (pursue_fields (ctl w) (dtOf w now) (anim w))
      as (_ & _ & _ & Ft & _ & Fs). cbv zeta in Ft, Fs.
    pose proof (pursue_velocitiesOk (ctl w) (dtOf w now) (anim w)
                  (proj1 (dtOf_range w now)) HV) as (Vp & _ & Vs).
    pose proof (dtOf_range w now) as Hdt.
    set (P := pursue (ctl w) (dtOf w now) (anim w)) in *.
    assert (Ht1 : t (anim w) <= t P) by (rewrite Ft; nra).
    assert (Hs1 : swirl (anim w) <= swirl P) by (rewrite Fs; nra).
    unfold phasesOk. rewrite Et, Es. unfold resetBig.
    destruct (Rlt_dec 1e6 (t P)); destruct (Rlt_dec (t P) (-1e6));
      destruct (Rlt_dec 1e6 (swirl P)); destruct (Rlt_dec (swirl P) (-1e6));
      repeat split; lra.
  - destruct L as (_ & _ & _ & Et & Es).
    unfold phasesOk. rewrite Et, Es. repeat split; lra.
Qed.

Lemma steps_reachableOk (es : list event) :
  forall w, velocitiesOk (anim w) -> phasesOk (anim w) ->
            velocitiesOk (anim (steps w es)) /\ phasesOk (anim (steps w es)).
Proof.
  unfold steps. induction es as [| e es IH]; intros w HV HP; simpl; [auto |].
  apply IH.
  - apply step_velocitiesOk, HV.
  - destruct e as [now elapsed | c now]; [| exact HP].
    apply (loop_phasesOk w now elapsed HV HP).
Qed.

Lemma initial_phasesOk : phasesOk initialState.
Proof. unfold phasesOk. simpl. lra. Qed.

(** X15. From the initial state, whatever the frames and the control
    settings, pattern time and swirl phase stay within [[0, 1e6]], and a
    frame never moves either of them back except for the reset to 0. *)
Theorem phases_never_run_backwards (c : controls) (now0 : R)
  (es : list event) :
  let w := steps (initialWorld c now0) es in
  phasesOk (anim w) /\
  forall now elapsed : R,
    let S' := anim (loop w now elapsed) in
    (t (anim w) <= t S' \/ t S' = 0) /\
    (swirl (anim w) <= swirl S' \/ swirl S' = 0).
Proof.
  intros w.
  destruct (steps_reachableOk es (initialWorld c now0)
              initial_velocitiesOk initial_phasesOk) as [HV HP].
  fold w in HV, HP. split; [exact HP |].
  intros now elapsed. apply (loop_phasesOk w now elapsed HV HP).
Qed.

Lemma loop_fps (w : world) (now elapsed : R) :
  fps (anim (loop w now elapsed)) =
  fps (anim w) + (instFpsOf w now - fps (anim w)) * 0.12 /\
  renderMs (anim (loop w now elapsed)) = elapsed.
Proof.
  unfold loop, instFpsOf. destruct (run (ctl w)); split; reflexivity.
Qed.

Lemma instFpsOf_positive (w : world) (now : R) : 0 < instFpsOf w now.
Proof.
  unfold instFpsOf. destruct (Rlt_dec 0 (dtRawOf w now)) as [Hpos | _]; [| lra].
  assert (Hi : 0 < / dtRawOf w now) by (apply Rinv_0_lt_compat; exact Hpos).
  unfold Rdiv. rewrite Rmult_1_l. exact Hi.
Qed.

Lemma step_fps_positive (w : world) (e : event) :
  0 < fps (anim w) -> 0 < fps (anim (step w e)).
Proof.
  intros H. destruct e as [now elapsed | c now]; [| exact H].
  change (step w (Frame now elapsed)) with (loop w now elapsed).
  destruct (loop_fps w now elapsed) as [E _]. rewrite E.
  pose proof (instFpsOf_positive w now). lra.
Qed.

Lemma steps_fps_positive (es : list event) :
  forall w, 0 < fps (anim w) -> 0 < fps (anim (steps w es)).
Proof.
  unfold steps. induction es as [| e es IH]; intros w H; simpl; [exact H |].
  apply IH, step_fps_positive, H.
Qed.

(** X16. The frame-rate estimate is positive after any number of frames; a
    frame moves it 12 percent of the way to the instantaneous rate, which
    is [1 / dtRaw], or 60 when no time has passed; [renderMs] holds the
    duration measured for the last frame. *)
Theorem fps_estimate_positive :
  (forall (c : controls) (now0 : R) (es : list event),
      0 < fps (anim (steps (initialWorld c now0) es))) /\
  (forall (w : world) (now elapsed : R),
      let S' := anim (loop w now elapsed) in
      fps S' = 0.88 * fps (anim w) + 0.12 * instFpsOf w now /\
      renderMs S' = elapsed /\
      (now <= last w -> instFpsOf w now = 60) /\
      (last w < now -> instFpsOf w now = 1000 / (now - last w))).
Proof.
  split.
  - intros c now0 es. apply steps_fps_positive. simpl. lra.
  - intros w now elapsed S'. subst S'.
    destruct (loop_fps w now elapsed) as [E1 E2].
    split; [rewrite E1; lra |]. split; [exact E2 |].
    unfold instFpsOf, dtRawOf, Rmax. split; intros H.
    + destruct (Rle_dec 0 ((now - last w) / 1000));
        destruct (Rlt_dec 0 _); lra.
    + destruct (Rle_dec 0 ((now - last w) / 1000)) as [Hle | Hn]; [| lra].
      destruct (Rlt_dec 0 ((now - last w) / 1000)) as [_ | Hn]; [| lra].
      field. lra.
Qed.

(** *** The fold of the rotation angle *)

Lemma rem_congruent (x T : R) : exists k : Z, Js.rem x T = x + IZR k * T.
Proof.
  exists (- Js.Math_trunc (x / T))%Z. unfold Js.rem. rewrite opp_IZR. ring.
Qed.

Lemma sin_cos_turns (x : R) (k : Z) :
  sin (x + IZR k * TAU) = sin x /\ cos (x + IZR k * TAU) = cos x.
Proof.
  destruct (Z_le_gt_dec 0 k) as [Hk | Hk].
  - replace (x + IZR k * TAU) with (x + 2 * INR (Z.to_nat k) * PI).
    + split; [apply sin_period | apply cos_period].
    + rewrite INR_IZR_INZ, Z2Nat.id by exact Hk. unfold TAU. ring.
  - set (y := x + IZR k * TAU).
    replace x with (y + 2 * INR (Z.to_nat (- k)) * PI).
    + split; [symmetry; apply sin_period | symmetry; apply cos_period].
    + rewrite INR_IZR_INZ, Z2Nat.id by lia. rewrite opp_IZR.
      subst y. unfold TAU. ring.
Qed.

(** X17. An angle within one turn of 0, [- TAU <= x <= TAU], is left as it
    is by the fold, and an angle outside is brought into [[0, TAU)].  In
    both cases the angle changes by a whole number of turns, so its sine
    and cosine, and with them the drawn rotation, are as before; and
    folding twice is folding once. *)
Theorem foldRot_keeps_direction (x : R) :
  (- TAU <= x <= TAU -> foldRot x = x) /\
  (TAU < x \/ x < - TAU -> 0 <= foldRot x < TAU) /\
  (exists k : Z, foldRot x = x + IZR k * TAU) /\
  sin (foldRot x) = sin x /\ cos (foldRot x) = cos x /\
  foldRot (foldRot x) = foldRot x.
Proof.
  split; [exact (proj2 (foldRot_spec x)) |].
  split; [exact (proj1 (foldRot_spec x)) |].
  assert (Hk : exists k : Z, foldRot x = x + IZR k * TAU).
  { assert (Hw : exists k : Z,
               Js.rem (Js.rem x TAU + TAU) TAU = x + IZR k * TAU).
    { destruct (rem_congruent x TAU) as [k1 E1].
      destruct (rem_congruent (Js.rem x TAU + TAU) TAU) as [k2 E2].
      exists (k1 + 1 + k2)%Z. rewrite E2, E1, !plus_IZR. ring. }
    unfold foldRot.
    destruct (Rlt_dec TAU x); [exact Hw |].
    destruct (Rlt_dec x (- TAU)); [exact Hw |].
    exists 0%Z. ring. }
  split; [exact Hk |].
  destruct Hk as [k E].
  destruct (sin_cos_turns x k) as [Es Ec].
  split; [rewrite E; exact Es |]. split; [rewrite E; exact Ec |].
  apply (proj2 (foldRot_spec (foldRot x))), foldRot_bounded.
Qed.

(* ================================================================== *)
(** * Further properties of the sample count and the geometry cache *)

Lemma Int_part_monotone (x y : R) : x <= y -> (Int_part x <= Int_part y)%Z.
Proof.
  intros Hxy.
  destruct (base_Int_part x) as [Hx _]. destruct (base_Int_part y) as [_ Hy].
  assert (H : IZR (Int_part x) < IZR (Int_part y + 1)).
  { rewrite plus_IZR. lra. }
  apply lt_IZR in H. lia.
Qed.

Lemma segsOf_range (segments : Z) : (2 <= segsOf segments <= 128)%Z.
Proof. unfold segsOf, clampZ. lia. Qed.

Lemma thetaNorm_eq (segments : Z) :
  thetaOf segments / (TAU / 12) = 12 / IZR (segsOf segments).
Proof.
  unfold thetaOf. pose proof TAU_pos.
  pose proof (segsOf_range segments) as [Hs _]. apply IZR_le in Hs.
  field. lra.
Qed.

Lemma segTaperOf_range (segments : Z) : 0 < segTaperOf segments <= 1.
Proof.
  unfold segTaperOf.
  destruct (clamp_bounds (thetaOf segments / (TAU / 12)) 0.25 1) as [Hlo Hhi];
    [lra |].
  set (x := clamp _ 0.25 1) in *. clearbody x.
  rewrite Math_pow_pos by lra. split; [apply exp_pos |].
  destruct (Math_pow_unit x 0.75) as [_ H]; [lra | lra |].
  rewrite Math_pow_pos in H by lra. exact H.
Qed.

Lemma segTaperOf_antitone (s1 s2 : Z) :
  (3 <= s1 <= s2)%Z -> (s2 <= 64)%Z -> segTaperOf s2 <= segTaperOf s1.
Proof.
  intros H1 H2. unfold segTaperOf. rewrite !thetaNorm_eq.
  rewrite !segsOf_slider by lia.
  apply Math_pow_monotone; [| lra]. split.
  - destruct (clamp_bounds (12 / IZR s2) 0.25 1); lra.
  - apply clamp_monotone.
    assert (0 < IZR s1) by (apply IZR_lt; lia).
    assert (IZR s1 <= IZR s2) by (apply IZR_le; lia).
    unfold Rdiv. apply Rmult_le_compat_l; [lra |].
    apply Rinv_le_contravar; lra.
Qed.

Lemma sampleCount_unfold (segments : Z) (complexity : R) :
  sampleCount segments complexity =
  Z.max 260 (Js.Math_floor ((320 + 180 * complexity) * segTaperOf segments)).
Proof. reflexivity. Qed.

(** X18. For a complexity in [[1, 16]] and any segment count the sample count
    lies in [[260, 3200]] and is at most the sample count of v1.1 and v1.2;
    it never grows when segments are added (within [[3, 64]]) and never
    shrinks when the complexity is raised; up to 12 segments an integral
    complexity [n] gives exactly [320 + 180 n] samples. *)
Theorem sampleCount_bounds_and_monotone :
  (forall (segments : Z) (c : R), 1 <= c <= 16 ->
      (260 <= sampleCount segments c <= 3200)%Z /\
      IZR (sampleCount segments c) <= samplesV11 c) /\
  (forall (s1 s2 : Z) (c : R), 1 <= c <= 16 ->
      (3 <= s1 <= s2)%Z -> (s2 <= 64)%Z ->
      (sampleCount s2 c <= sampleCount s1 c)%Z) /\
  (forall (segments : Z) (c1 c2 : R), 1 <= c1 <= c2 ->
      (sampleCount segments c1 <= sampleCount segments c2)%Z) /\
  (forall (segments n : Z), (3 <= segments <= 12)%Z -> (1 <= n <= 16)%Z ->
      sampleCount segments (IZR n) = (320 + 180 * n)%Z).
Proof.
  split; [| split; [| split]].
  - intros segments c Hc. rewrite sampleCount_unfold.
    pose proof (segTaperOf_range segments) as Ht.
    set (tp := segTaperOf segments) in *. clearbody tp.
    assert (Hle : (Js.Math_floor ((320 + 180 * c) * tp)
                   <= Js.Math_floor (320 + 180 * c))%Z).
    { apply Int_part_monotone. nra. }
    assert (Hle2 : (Js.Math_floor (320 + 180 * c) <= 3200)%Z).
    { rewrite <- (Math_floor_IZR 3200). apply Int_part_monotone. lra. }
    split; [lia |].
    assert (Hf : IZR (Js.Math_floor ((320 + 180 * c) * tp)) <= 320 + 180 * c).
    { destruct (base_Int_part ((320 + 180 * c) * tp)) as [Hb _].
      unfold Js.Math_floor. nra. }
    unfold samplesV11, Rmax.
    destruct (Z.max_spec 260 (Js.Math_floor ((320 + 180 * c) * tp)))
      as [[_ ->] | [_ ->]]; destruct_Rle; lra.
  - intros s1 s2 c Hc H1 H2. rewrite !sampleCount_unfold.
    pose proof (segTaperOf_antitone s1 s2 H1 H2) as Ht.
    apply Z.max_le_compat_l, Int_part_monotone. nra.
  - intros segments c1 c2 Hc. rewrite !sampleCount_unfold.
    pose proof (segTaperOf_range segments) as Ht.
    apply Z.max_le_compat_l, Int_part_monotone. nra.
  - intros segments n Hs Hn. rewrite sampleCount_unfold.
    unfold segTaperOf. rewrite thetaNorm_eq, segsOf_slider by lia.
    assert (0 < IZR segments <= 12)
      by (split; [apply IZR_lt | apply (IZR_le _ 12)]; lia).
    rewrite clamp_above; [| lra |].
    + rewrite Math_pow_pos, Rpower_one by lra.
      replace ((320 + 180 * IZR n) * 1) with (IZR (320 + 180 * n))
        by (rewrite plus_IZR, mult_IZR; lra).
      rewrite Math_floor_IZR. lia.
    + apply Rmult_le_reg_r with (IZR segments); [lra |].
      unfold Rdiv. rewrite Rmult_assoc, Rinv_l by lra. lra.
Qed.

(* ================================================================== *)
(** * Further properties of the wedge renderer *)


Lemma buildGeo_cells (L : nat) (theta c : R) (j : nat) :
  (j <= L)%nat ->
  let G := buildGeo L theta c in
  let tj := INR j / INR L in
  cell (Gt G) j = tj /\
  cell (cosAng G) j = cos (angOf L theta c j) /\
  cell (sinAng G) j = sin (angOf L theta c j) /\
  cell (sinPhi1 G) j = sin (k1 c * tj) /\
  cell (cosPhi1 G) j = cos (k1 c * tj) /\
  cell (sinPhi2 G) j = sin (k2 c * tj) /\
  cell (cosPhi2 G) j = cos (k2 c * tj) /\
  cell (sinPhi3 G) j = sin (k3 c * (tj * 1.2)) /\
  cell (cosPhi3 G) j = cos (k3 c * (tj * 1.2)).
Proof.
  intros Hj. unfold buildGeo, angOf. simpl.
  rewrite !cell_table by exact Hj. repeat split; reflexivity.
Qed.

(** X19. With the cache built for [L] samples, every sample [j <= L] of every
    frame has [Rnorm] in [[0, 1.1]]; for a radius [>= 0] its point is
    [(rho cos ang, rho sin ang)] with [ang] the angle of the sample and
    [rho] between 0.05 and 0.98 times the radius, so it lies in that ring
    around the centre. *)
Theorem wedge_points_in_ring (L : nat) (theta c radius : R) (S : state)
  (j : nat) (Hj : (j <= L)%nat) (Hradius : 0 <= radius) :
  let G := buildGeo L theta c in
  let rho := radiusAt radius G S j in
  0 <= Rnorm G S j <= 1.1 /\
  0.05 * radius <= rho <= 0.98 * radius /\
  pointAt radius G S j =
    (cos (angOf L theta c j) * rho, sin (angOf L theta c j) * rho) /\
  fst (pointAt radius G S j) * fst (pointAt radius G S j)
  + snd (pointAt radius G S j) * snd (pointAt radius G S j) = rho * rho.
Proof.
  intros G rho. subst rho G.
  destruct (buildGeo_cells L theta c j Hj) as (_ & Ec & Es & _).
  cbv zeta in Ec, Es.
  assert (EP : pointAt radius (buildGeo L theta c) S j =
               (cos (angOf L theta c j) * radiusAt radius (buildGeo L theta c) S j,
                sin (angOf L theta c j) * radiusAt radius (buildGeo L theta c) S j)).
  { unfold pointAt. cbv zeta. rewrite Ec, Es. reflexivity. }
  split; [| split; [| split]].
  - rewrite Rnorm_angle_addition by exact Hj. cbv zeta.
    pose proof (SIN_bound (k1 c * (INR j / INR L) + a1 S)).
    pose proof (SIN_bound (k2 c * (INR j / INR L) + a2 S)).
    pose proof (SIN_bound (k3 c * (INR j / INR L * 1.2) + a3 S)).
    lra.
  - unfold radiusAt.
    destruct (clamp_bounds (Rnorm (buildGeo L theta c) S j) 0.05 0.98);
      [lra | nra].
  - exact EP.
  - rewrite EP. simpl fst. simpl snd.
    set (rho := radiusAt radius (buildGeo L theta c) S j).
    pose proof (sin2_cos2 (angOf L theta c j)) as H. unfold Rsqr in H.
    nra.
Qed.

Lemma wedge_points_in_ring_witness :
  let G := buildGeo 1400 (thetaOf 12) 6 in
  let rho := radiusAt 300 G initialState 700 in
  0 <= Rnorm G initialState 700 <= 1.1 /\
  0.05 * 300 <= rho <= 0.98 * 300 /\
  pointAt 300 G initialState 700 =
    (cos (angOf 1400 (thetaOf 12) 6 700) * rho,
     sin (angOf 1400 (thetaOf 12) 6 700) * rho) /\
  fst (pointAt 300 G initialState 700) * fst (pointAt 300 G initialState 700)
  + snd (pointAt 300 G initialState 700) * snd (pointAt 300 G initialState 700)
  = rho * rho.
Proof.
  apply (wedge_points_in_ring 1400 (thetaOf 12) 6 300 initialState 700);
    [lia | lra].
Defined.

(** X20. The cached tables and the angle addition of v1.6 give, at every
    sample [j <= L] and in every state, the sum
    [0.55 + 0.30 sin(k1 t + a1) + 0.15 sin(k2 t + a2) + 0.10 sin(1.2 k3 t + a3)]
    evaluated directly; when the swirl phase is 0 its first and third
    harmonics are those of the closed form of v1.1 at any pattern time. *)
Theorem wedge_cache_equals_direct_sum (L : nat) (theta c : R) (S : state)
  (j : nat) (Hj : (j <= L)%nat) :
  let tj := INR j / INR L in
  Rnorm (buildGeo L theta c) S j =
    0.55 + 0.30 * sin (k1 c * tj + a1 S)
         + 0.15 * sin (k2 c * tj + a2 S)
         + 0.10 * sin (k3 c * (tj * 1.2) + a3 S) /\
  (swirl S = 0 ->
   Rnorm (buildGeo L theta c) S j =
     V11.Rnorm c (t S) 0 tj
     - 0.15 * cos (k2 c * (tj + 0.20) - 0.7 * t S)
     + 0.15 * sin (k2 c * tj + 0.20 - 0.7 * t S)).
Proof.
  intros tj. pose proof (Rnorm_angle_addition L theta c S j Hj) as E.
  cbv zeta in E. fold tj in E. split; [exact E |].
  intros Hs. rewrite E. unfold V11.Rnorm, a1, a2, a3. rewrite Hs.
  rewrite !Rmult_0_l, sin_0, cos_0.
  replace (k1 c * tj + (1.3 * t S + 0.15 * 0))
    with (k1 c * (tj + 0.15 * 0) + 1.3 * t S) by lra.
  replace (k3 c * (tj * 1.2) + (0.9 * t S + 0.05 * 0))
    with (k3 c * (tj * 1.2 + 0.05 * 0) + 0.9 * t S) by lra.
  replace (k2 c * tj + (-0.7 * t S + 0.20 * 1))
    with (k2 c * tj + 0.20 - 0.7 * t S) by lra.
  replace (k2 c * (tj + 0.20 * 1) - 0.7 * t S)
    with (k2 c * (tj + 0.20) - 0.7 * t S) by lra.
  lra.
Qed.

Lemma wedge_cache_equals_direct_sum_witness :
  let S := initialState in
  let tj := INR 350 / INR 1400 in
  Rnorm (buildGeo 1400 (thetaOf 12) 6) S 350 =
    0.55 + 0.30 * sin (k1 6 * tj + a1 S)
         + 0.15 * sin (k2 6 * tj + a2 S)
         + 0.10 * sin (k3 6 * (tj * 1.2) + a3 S) /\
  (swirl S = 0 ->
   Rnorm (buildGeo 1400 (thetaOf 12) 6) S 350 =
     V11.Rnorm 6 (t S) 0 tj
     - 0.15 * cos (k2 6 * (tj + 0.20) - 0.7 * t S)
     + 0.15 * sin (k2 6 * tj + 0.20 - 0.7 * t S)).
Proof.
  apply (wedge_cache_equals_direct_sum 1400 (thetaOf 12) 6 initialState 350).
  lia.
Defined.

(** *** Colour buckets and strokes *)












Section Strokes.

Variables (radius : R) (St : state) (colors : list string) (G : geo).

Let L : nat := (List.length (Gt G) - 1)%nat.
Let n : nat := List.length colors.








End Strokes.


(* ================================================================== *)
(** * Properties of the geometry cache *)

Lemma Math_round_separates (a b : R) :
  b + 1 <= a -> (Js.Math_round b < Js.Math_round a)%Z.
Proof.
  intros H. unfold Js.Math_round.
  destruct (base_Int_part (b + / 2)) as [Hb _].
  destruct (base_Int_part (a + / 2)) as [_ Ha].
  apply lt_IZR. lra.
Qed.

Lemma theta_gap (n1 n2 : Z) :
  (2 <= n1 < n2)%Z -> (n2 <= 128)%Z ->
  TAU / IZR n2 * 1e6 + 1 <= TAU / IZR n1 * 1e6.
Proof.
  intros H1 H2.
  assert (HT : 6 < TAU) by (unfold TAU; pose proof PI2_3_2; lra).
  assert (A1 : 2 <= IZR n1) by (apply (IZR_le 2); lia).
  assert (A2 : IZR n1 + 1 <= IZR n2)
    by (rewrite <- (plus_IZR n1 1); apply IZR_le; lia).
  assert (A3 : IZR n2 <= 128) by (apply (IZR_le _ 128); lia).
  set (x1 := TAU / IZR n1). set (x2 := TAU / IZR n2).
  assert (E1 : x1 * IZR n1 = TAU) by (subst x1; field; lra).
  assert (E2 : x2 * IZR n2 = TAU) by (subst x2; field; lra).
  assert (P1 : 0 < x1) by (subst x1; apply Rdiv_lt_0_compat; lra).
  assert (P2 : 0 < x2) by (subst x2; apply Rdiv_lt_0_compat; lra).
  clearbody x1 x2.
  assert (B2 : 6 / 128 < x2) by nra.
  assert (D : x2 <= (x1 - x2) * IZR n1) by nra.
  assert (D' : x2 / 128 <= x1 - x2) by nra.
  lra.
Qed.

Lemma toFixed6_theta_injective (s1 s2 : Z) :
  toFixed6 (thetaOf s1) = toFixed6 (thetaOf s2) -> thetaOf s1 = thetaOf s2.
Proof.
  unfold toFixed6, thetaOf. intros E.
  pose proof (segsOf_range s1) as R1. pose proof (segsOf_range s2) as R2.
  destruct (Z.lt_trichotomy (segsOf s1) (segsOf s2)) as [Hlt | [Heq | Hgt]].
  - pose proof (theta_gap (segsOf s1) (segsOf s2)) as G.
    pose proof (Math_round_separates _ _ (G ltac:(lia) ltac:(lia))). lia.
  - rewrite Heq. reflexivity.
  - pose proof (theta_gap (segsOf s2) (segsOf s1)) as G.
    pose proof (Math_round_separates _ _ (G ltac:(lia) ltac:(lia))). lia.
Qed.

Lemma keyOf_determines_geo (c1 c2 : controls) :
  keyOf c1 = keyOf c2 -> geoOf c1 = geoOf c2.
Proof.
  unfold keyOf, geoOf. intros E. injection E as EL ET EC.
  apply toFixed6_theta_injective in ET. rewrite EL, ET, EC. reflexivity.
Qed.

Lemma sameKey_spec (a : option geoKey) (b : geoKey) :
  sameKey a b = true <-> a = Some b.
Proof.
  unfold sameKey. destruct a as [k |]; [| split; discriminate].
  destruct (geoKey_eq_dec k b) as [-> | Hne]; split; try reflexivity;
    try discriminate.
  intros E. injection E as E. contradiction.
Qed.

Lemma refreshGeo_coherent (c : controls) (G : geoCache) :
  coherent G ->
  coherent (refreshGeo c G) /\
  gkey (refreshGeo c G) = Some (keyOf c) /\
  garr (refreshGeo c G) = geoOf c.
Proof.
  intros HG. unfold refreshGeo. cbv zeta.
  destruct (sameKey (gkey G) (keyOf c)) eqn:E.
  - apply sameKey_spec in E. split; [exact HG |]. split; [exact E |].
    destruct (HG _ E) as (c' & Ek & Ea). rewrite Ea. symmetry.
    apply keyOf_determines_geo. exact Ek.
  - split; [| split; reflexivity].
    intros k Hk. simpl in Hk. injection Hk as <-.
    exists c. split; reflexivity.
Qed.

Lemma refreshAll_coherent (cs : list controls) :
  forall G, coherent G -> coherent (refreshAll G cs).
Proof.
  unfold refreshAll. induction cs as [| c cs IH]; intros G HG; simpl;
    [exact HG |].
  apply IH. apply (refreshGeo_coherent c G HG).
Qed.

Lemma initialGeoCache_coherent : coherent initialGeoCache.
Proof. intros k Hk. discriminate Hk. Qed.

(** X22. The geometry cache is never stale: after any run of frames, under
    whatever controls, the arrays handed to the renderer in a frame are
    those built for that frame's sample count, wedge angle and complexity;
    and a frame whose key is the cached key keeps the cache as it is. *)
Theorem geometry_cache_never_stale :
  (forall (cs : list controls) (c : controls),
      let G := refreshGeo c (refreshAll initialGeoCache cs) in
      gkey G = Some (keyOf c) /\ garr G = geoOf c) /\
  (forall (c : controls) (G : geoCache),
      gkey G = Some (keyOf c) -> refreshGeo c G = G) /\
  (forall (c : controls) (G : geoCache),
      gkey G <> Some (keyOf c) ->
      refreshGeo c G = mkGeoCache (Some (keyOf c)) (geoOf c)).
Proof.
  split; [| split].
  - intros cs c G. subst G.
    apply refreshGeo_coherent, refreshAll_coherent, initialGeoCache_coherent.
  - intros c G Hk. unfold refreshGeo. cbv zeta.
    rewrite (proj2 (sameKey_spec _ _) Hk). reflexivity.
  - intros c G Hk. unfold refreshGeo. cbv zeta.
    destruct (sameKey (gkey G) (keyOf c)) eqn:E; [| reflexivity].
    apply sameKey_spec in E. contradiction.
Qed.

(* ================================================================== *)
(** * Further properties of the palette operations *)

Lemma nth_error_indexed (cs : list string) :
  forall (a i : nat),
    nth_error (combine (seq a (List.length cs)) cs) i =
    option_map (fun c => ((a + i)%nat, c)) (nth_error cs i).
Proof.
  induction cs as [| c cs IH]; intros a i.
  - destruct i; reflexivity.
  - destruct i as [| i]; simpl.
    + rewrite Nat.add_0_r. reflexivity.
    + rewrite IH. replace (S a + i)%nat with (a + S i)%nat by lia.
      reflexivity.
Qed.

Lemma updateColor_length (index : nat) (value : string) (cs : list string) :
  List.length (updateColor index value cs) = List.length cs.
Proof.
  unfold updateColor.
  rewrite length_map, length_combine, length_seq. apply Nat.min_id.
Qed.

Lemma updateColor_nth (index : nat) (value : string) (cs : list string)
  (i : nat) :
  nth_error (updateColor index value cs) i =
  if Nat.eqb i index
  then option_map (fun _ => value) (nth_error cs i)
  else nth_error cs i.
Proof.
  unfold updateColor. rewrite nth_error_map, nth_error_indexed. simpl.
  destruct (nth_error cs i) as [c |]; simpl.
  - destruct (Nat.eqb i index); reflexivity.
  - destruct (Nat.eqb i index); reflexivity.
Qed.

(** X23. [updateColor] keeps the length of the colour list, puts the new
    value at the given index and leaves every other entry as it is; an
    index beyond the end changes nothing. *)
Theorem updateColor_sets_one_entry (index : nat) (value : string)
  (cs : list string) :
  List.length (updateColor index value cs) = List.length cs /\
  ((index < List.length cs)%nat ->
   nth_error (updateColor index value cs) index = Some value) /\
  (forall i : nat, i <> index ->
     nth_error (updateColor index value cs) i = nth_error cs i) /\
  ((List.length cs <= index)%nat -> updateColor index value cs = cs).
Proof.
  split; [apply updateColor_length |]. split; [| split].
  - intros Hlt. rewrite updateColor_nth, Nat.eqb_refl.
    destruct (nth_error cs index) eqn:E; [reflexivity |].
    apply nth_error_None in E. lia.
  - intros i Hne. rewrite updateColor_nth.
    destruct (Nat.eqb_spec i index); [contradiction | reflexivity].
  - intros Hge. apply nth_error_ext. intros i. rewrite updateColor_nth.
    destruct (Nat.eqb_spec i index) as [-> | _]; [| reflexivity].
    assert (E : nth_error cs index = None) by (apply nth_error_None; exact Hge).
    rewrite E. reflexivity.
Qed.

Lemma applyEdit_lengthOk (cs : list string) (e : colorEdit) :
  lengthOk cs -> lengthOk (applyEdit cs e).
Proof.
  intros H. destruct e as [| | index value].
  - apply (applyOp_lengthOk cs AddColor H).
  - apply (applyOp_lengthOk cs RemoveColor H).
  - unfold lengthOk in *. simpl. rewrite updateColor_length. exact H.
Qed.

Lemma applyEdits_lengthOk (es : list colorEdit) :
  forall cs, lengthOk cs -> lengthOk (applyEdits cs es).
Proof.
  unfold applyEdits.
  induction es as [| e es IH]; intros cs H; simpl; [exact H |].
  apply IH, applyEdit_lengthOk, H.
Qed.

(** X24. Any sequence of the three palette edits keeps the colour list
    between 3 and 12 entries; removing after adding gives the list back when
    there was room to add, while adding after removing replaces the last
    entry by white. *)
Theorem palette_edits_compose :
  (forall es : list colorEdit,
      (3 <= List.length (applyEdits initialColors es) <= 12)%nat) /\
  (forall cs : list string,
      (3 <= List.length cs < 12)%nat -> removeColor (addColor cs) = cs) /\
  (forall cs : list string,
      (3 < List.length cs <= 12)%nat ->
      addColor (removeColor cs) = removelast cs ++ ["#ffffff"%string]) /\
  (forall cs : list string,
      List.length cs = 12%nat -> removeColor (addColor cs) = removelast cs).
Proof.
  split; [| split; [| split]].
  - intros es. apply (applyEdits_lengthOk es initialColors).
    unfold lengthOk, initialColors. simpl. lia.
  - intros cs H.
    destruct (addColor_spec cs) as [[_ Ea] | [Hge _]]; [| lia].
    rewrite Ea.
    destruct (removeColor_spec (cs ++ ["#ffffff"%string]))
      as [[_ Er] | [Hle _]].
    + rewrite Er. apply removelast_last.
    + rewrite length_app in Hle. simpl in Hle. lia.
  - intros cs H.
    destruct (removeColor_spec cs) as [[_ Er] | [Hle _]]; [| lia].
    rewrite Er.
    destruct (addColor_spec (removelast cs)) as [[_ Ea] | [Hge _]];
      [exact Ea |].
    assert (Hl : (List.length (removelast cs) < List.length cs)%nat).
    { destruct cs as [| c0 cs']; [simpl in H; lia |].
      rewrite removelast_firstn_len, length_firstn. simpl. lia. }
    lia.
  - intros cs H.
    destruct (addColor_spec cs) as [[Hlt _] | [_ Ea]]; [lia |].
    rewrite Ea.
    destruct (removeColor_spec cs) as [[_ Er] | [Hle _]]; [exact Er | lia].
Qed.

(* ================================================================== *)
(** * Properties of the canvas fit *)

(** X25. With a cap of at least 1 and a device pixel ratio that is not
    negative, [fit] uses a pixel ratio that is positive and at most the
    cap: the device's own ratio when that is positive and within the cap,
    1 when the device reports none; the backing size of a side is then at
    most the displayed size times the cap. *)
Theorem fit_respects_cap (dprCap devicePixelRatio client inner : R)
  (Hcap : 1 <= dprCap) (Hdev : 0 <= devicePixelRatio)
  (Hclient : 0 <= client) (Hinner : 0 <= inner) :
  let dpr := fitDpr dprCap devicePixelRatio in
  0 < dpr <= dprCap /\
  (0 < devicePixelRatio <= dprCap -> dpr = devicePixelRatio) /\
  (devicePixelRatio = 0 -> dpr = 1) /\
  (0 <= fitSide dprCap devicePixelRatio client inner)%Z /\
  IZR (fitSide dprCap devicePixelRatio client inner)
    <= orElse client inner * dprCap.
Proof.
  intros dpr.
  assert (Hd : 0 < dpr <= dprCap /\
               (0 < devicePixelRatio <= dprCap -> dpr = devicePixelRatio) /\
               (devicePixelRatio = 0 -> dpr = 1)).
  { subst dpr. unfold fitDpr, orElse, Rmin.
    destruct (Req_dec_T devicePixelRatio 0); destruct_Rle;
      repeat split; intros; lra. }
  destruct Hd as (Hd1 & Hd2 & Hd3).
  split; [exact Hd1 |]. split; [exact Hd2 |]. split; [exact Hd3 |].
  assert (Hside : 0 <= orElse client inner).
  { unfold orElse. destruct (Req_dec_T client 0); lra. }
  unfold fitSide. fold dpr. set (side := orElse client inner) in *.
  clearbody side dpr. split.
  - rewrite <- (Math_floor_IZR 0). apply Int_part_monotone. nra.
  - destruct (base_Int_part (side * dpr)) as [Hb _].
    unfold Js.Math_floor. nra.
Qed.

Lemma fit_respects_cap_witness :
  let dpr := fitDpr 1.75 1.5 in
  0 < dpr <= 1.75 /\
  (0 < 1.5 <= 1.75 -> dpr = 1.5) /\
  (1.5 = 0 -> dpr = 1) /\
  (0 <= fitSide 1.75 1.5 800 1024)%Z /\
  IZR (fitSide 1.75 1.5 800 1024) <= orElse 800 1024 * 1.75.
Proof.
  apply (fit_respects_cap 1.75 1.5 800 1024); lra.
Defined.

(* ================================================================== *)
(** * Properties of the engines of v1.1 and v1.2 *)

Lemma zoomStep_range (c : Engine11.controls) (dt z : R) :
  0.25 <= Engine11.zoomStep c dt z <= 4.
Proof. unfold Engine11.zoomStep. apply clamp_bounds. lra. Qed.

Lemma loop11_zoom (w : Engine11.world) (now : R) :
  0.25 <= Engine11.zoom (Engine11.anim w) <= 4 ->
  0.25 <= Engine11.zoom (Engine11.anim (Engine11.loop w now)) <= 4.
Proof.
  intros H. unfold Engine11.loop. simpl.
  destruct (Engine11.run (Engine11.ctl w)); [| exact H].
  simpl. destruct (Engine11.zoomEnabled (Engine11.ctl w));
    [apply zoomStep_range | exact H].
Qed.

Lemma steps11_zoom (es : list Engine11.event) :
  forall w, 0.25 <= Engine11.zoom (Engine11.anim w) <= 4 ->
            0.25 <= Engine11.zoom (Engine11.anim (Engine11.steps w es)) <= 4.
Proof.
  unfold Engine11.steps.
  induction es as [| e es IH]; intros w H; simpl; [exact H |].
  apply IH. destruct e as [now | c now]; [apply loop11_zoom, H | exact H].
Qed.

Lemma exp_growth (x : R) : 0 <= x -> 1 <= exp x.
Proof.
  intros Hx. rewrite <- exp_0.
  destruct (Req_dec x 0) as [-> | Hne]; [lra |].
  left. apply exp_increasing. lra.
Qed.

Lemma exp_decay (x : R) : x <= 0 -> 0 < exp x <= 1.
Proof.
  intros Hx. split; [apply exp_pos |]. rewrite <- exp_0.
  destruct (Req_dec x 0) as [-> | Hne]; [lra |].
  left. apply exp_increasing. lra.
Qed.

(** X26. In v1.1 the zoom stays within [[0.25, 4]] from the initial state,
    whatever the frames and the settings; a frame leaves it as it is while
    paused or with zoom disabled, never lowers it in direction ["in"] and
    never raises it in any other direction (for a zoom speed [>= 0]); and
    with the zoom in that range the base line width lies in [[0.75, 10]] and
    every line width set is positive. *)
Theorem zoom_stays_in_range :
  (forall (c : Engine11.controls) (now0 : R) (es : list Engine11.event),
      0.25 <= Engine11.zoom
                (Engine11.anim (Engine11.steps (Engine11.initialWorld c now0) es))
           <= 4) /\
  (forall (w : Engine11.world) (now : R),
      let c := Engine11.ctl w in
      let z := Engine11.zoom (Engine11.anim w) in
      let z' := Engine11.zoom (Engine11.anim (Engine11.loop w now)) in
      (Engine11.run c = false \/ Engine11.zoomEnabled c = false -> z' = z) /\
      (Engine11.run c = true -> Engine11.zoomEnabled c = true ->
       0 <= Engine11.zoomSpeed c -> 0.25 <= z <= 4 ->
       if String.eqb (Engine11.zoomDirection c) "in"
       then z <= z' else z' <= z)) /\
  (forall (S : Engine11.state) (tt : R),
      0.25 <= Engine11.zoom S <= 4 ->
      0.75 <= Engine11.baseLW S <= 10 /\
      0.4875 <= Engine11.lineWidthAt S tt <= 13.5).
Proof.
  split; [| split].
  - intros c now0 es. apply steps11_zoom. simpl. lra.
  - intros w now c z z'. subst c z z'. unfold Engine11.loop. simpl. split.
    + intros [H | H].
      * rewrite H. reflexivity.
      * destruct (Engine11.run (Engine11.ctl w)); [| reflexivity].
        simpl. rewrite H. reflexivity.
    + intros Hrun Hen Hsp Hz. rewrite Hrun. simpl. rewrite Hen.
      unfold Engine11.zoomStep.
      set (dt := Rmax 0 ((now - Engine11.last w) / 1000)).
      assert (Hdt : 0 <= dt) by (subst dt; unfold Rmax; destruct_Rle; lra).
      set (z := Engine11.zoom (Engine11.anim w)) in *.
      set (v := Engine11.zoomSpeed (Engine11.ctl w)) in *.
      destruct (String.eqb (Engine11.zoomDirection (Engine11.ctl w)) "in").
      * pose proof (exp_growth (1 * v * dt)) as He.
        assert (0 <= 1 * v * dt) by nra. specialize (He H).
        set (e := exp (1 * v * dt)) in *. clearbody e.
        unfold clamp, Rmin, Rmax. destruct_Rle; nra.
      * pose proof (exp_decay (-1 * v * dt)) as He.
        assert (-1 * v * dt <= 0) by nra. specialize (He H).
        set (e := exp (-1 * v * dt)) in *. clearbody e.
        unfold clamp, Rmin, Rmax. destruct_Rle; nra.
  - intros S tt Hz.
    assert (Hb : 0.75 <= Engine11.baseLW S <= 10).
    { unfold Engine11.baseLW.
      assert (Hi : / 4 <= / Engine11.zoom S <= / 0.25).
      { split; apply Rinv_le_contravar; lra. }
      unfold Rmax, Rdiv. destruct_Rle; lra. }
    split; [exact Hb |].
    unfold Engine11.lineWidthAt.
    pose proof (SIN_bound (6 * tt + Engine11.t S)) as Hs.
    set (b := Engine11.baseLW S) in *. clearbody b.
    set (sn := sin (6 * tt + Engine11.t S)) in *. clearbody sn.
    nra.
Qed.

Lemma scale12_range (c : Engine12.controls) : 0.1 <= Engine12.scale c <= 1.
Proof.
  unfold Engine12.scale.
  destruct (clamp_bounds (Engine12.sensitivity c) 0.1 1.0); lra.
Qed.

Lemma alpha12_range (dt : R) : 0 <= dt -> 0 <= 1 - exp (- dt / 0.2) < 1.
Proof.
  intros Hdt. destruct (exp_decay (- dt / 0.2)); lra.
Qed.

Lemma dtOf12_range (w : Engine12.world) (now : R) :
  0 <= Engine12.dtOf w now <= 0.050.
Proof. unfold Engine12.dtOf, Rmin, Rmax. destruct_Rle; lra. Qed.

Lemma advance12_velocitiesOk (c : Engine12.controls) (dt : R)
  (S : Engine12.state) :
  0 <= dt -> Engine12.slidersOk c -> Engine12.velocitiesOk S ->
  Engine12.velocitiesOk (Engine12.advance c dt S).
Proof.
  intros Hdt (Cp & Cr & Cs) (Vp & Vr & Vs).
  pose proof (scale12_range c) as Hsc.
  pose proof (alpha12_range dt Hdt) as Ha.
  unfold Engine12.velocitiesOk, Engine12.advance. simpl.
  set (sc := Engine12.scale c) in *. clearbody sc.
  split; [| split]; apply smooth_in_interval; try assumption; nra.
Qed.

Lemma step12_invariant (w : Engine12.world) (e : Engine12.event) :
  Engine12.eventOk e ->
  Engine12.slidersOk (Engine12.ctl w) ->
  Engine12.velocitiesOk (Engine12.anim w) ->
  Engine12.slidersOk (Engine12.ctl (Engine12.step w e)) /\
  Engine12.velocitiesOk (Engine12.anim (Engine12.step w e)).
Proof.
  intros He Hc Hv. destruct e as [now | c now]; simpl.
  - split; [exact Hc |].
    destruct (Engine12.run (Engine12.ctl w)); [| exact Hv].
    apply advance12_velocitiesOk; [apply dtOf12_range | exact Hc | exact Hv].
  - split; [exact He | exact Hv].
Qed.

Lemma steps12_invariant (es : list Engine12.event) :
  Forall Engine12.eventOk es ->
  forall w,
    Engine12.slidersOk (Engine12.ctl w) ->
    Engine12.velocitiesOk (Engine12.anim w) ->
    Engine12.slidersOk (Engine12.ctl (Engine12.steps w es)) /\
    Engine12.velocitiesOk (Engine12.anim (Engine12.steps w es)).
Proof.
  unfold Engine12.steps.
  induction 1 as [| e es He Hes IH]; intros w Hc Hv; simpl; [auto |].
  destruct (step12_invariant w e He Hc Hv) as [Hc' Hv'].
  apply IH; assumption.
Qed.

(** X27. In v1.2, as long as the three speed sliders stay in their ranges
    ([[0, 2]], [[-0.5, 0.5]], [[0, 2]]), the smoothed velocities stay in the
    same ranges from the initial state on, and no frame moves pattern time
    or swirl phase back; the sensitivity scales every target by a factor in
    [[0.1, 1]]. *)
Theorem v12_velocities_within_sliders (c : Engine12.controls) (now0 : R)
  (es : list Engine12.event)
  (Hc : Engine12.slidersOk c) (Hes : Forall Engine12.eventOk es) :
  let w := Engine12.steps (Engine12.initialWorld c now0) es in
  Engine12.velocitiesOk (Engine12.anim w) /\
  (forall now : R,
      let S' := Engine12.anim (Engine12.loop w now) in
      Engine12.t (Engine12.anim w) <= Engine12.t S' /\
      Engine12.swirl (Engine12.anim w) <= Engine12.swirl S') /\
  0.1 <= Engine12.scale (Engine12.ctl w) <= 1.
Proof.
  intros w.
  assert (H0 : Engine12.velocitiesOk
                 (Engine12.anim (Engine12.initialWorld c now0))).
  { unfold Engine12.velocitiesOk. simpl. lra. }
  destruct (steps12_invariant es Hes (Engine12.initialWorld c now0) Hc H0)
    as [Hcw Hvw].
  fold w in Hcw, Hvw.
  split; [exact Hvw |]. split; [| apply scale12_range].
  intros now S'. subst S'. unfold Engine12.loop. simpl.
  destruct (Engine12.run (Engine12.ctl w)); [| lra].
  pose proof (dtOf12_range w now) as Hdt.
  pose proof (advance12_velocitiesOk (Engine12.ctl w) (Engine12.dtOf w now)
                (Engine12.anim w) (proj1 Hdt) Hcw Hvw) as (Vp & _ & Vs).
  unfold Engine12.advance in *. simpl in *.
  split; nra.
Qed.

Lemma v12_velocities_within_sliders_witness :
  let c := Engine12.mkControls true 1.0 0.25 0.6 0.5 in
  let es := [Engine12.Frame 16;
             Engine12.Rebind (Engine12.mkControls true 2 (-0.5) 0 1) 20;
             Engine12.Frame 36] in
  let w := Engine12.steps (Engine12.initialWorld c 0) es in
  Engine12.velocitiesOk (Engine12.anim w) /\
  (forall now : R,
      let S' := Engine12.anim (Engine12.loop w now) in
      Engine12.t (Engine12.anim w) <= Engine12.t S' /\
      Engine12.swirl (Engine12.anim w) <= Engine12.swirl S') /\
  0.1 <= Engine12.scale (Engine12.ctl w) <= 1.
Proof.
  apply (v12_velocities_within_sliders
           (Engine12.mkControls true 1.0 0.25 0.6 0.5) 0
           [Engine12.Frame 16;
            Engine12.Rebind (Engine12.mkControls true 2 (-0.5) 0 1) 20;
            Engine12.Frame 36]).
  - unfold Engine12.slidersOk. simpl. lra.
  - repeat constructor; simpl; lra.
Defined.
